(** * trello-card-snooze: a shallow embedding of [run.py]

    The script reads every card of one Trello board, walks the cards to
    snooze, wake and repair them, moves the cards labelled for tomorrow
    during a nightly window, mirrors every project in a checklist on its
    master card and finally removes the card an external monitor leaves
    on the board.

    The embedding keeps the shape of the script: cards, labels and
    checklists are records with the fields of the JSON objects the script
    reads, every call of the Trello client is a value of [call], the
    dictionary [projects] is a finite map that the reconciliation loop
    threads through the project cards (the script consumes its lists in
    place), and the card dictionaries that the first two loops mutate are
    cells of the list [data] addressed by position.  Titles are texts in
    UTF-8; the pattern of the dollar handler and [int] read them
    character by character, with the decimal digits of the Unicode
    database of the interpreter. *)

From stdpp Require Import gmap strings list pretty.
From Stdlib Require Import ZArith Ascii.

Local Open Scope Z_scope.

(** ** Data model *)

(** [item['state']] of a check item. *)
Inductive check_state := complete | incomplete.

#[global] Instance check_state_eq_dec : EqDecision check_state.
Proof. solve_decision. Defined.

Record CheckItem := {
  item_id : string;
  item_name : string;
  item_state : check_state
}.

Record Checklist := {
  checklist_id : string;
  checklist_name : string;
  checkItems : list CheckItem
}.

(** A label; [label_color = None] is JSON [null], a project label. *)
Record Label := {
  label_id : string;
  label_name : string;
  label_color : option string
}.

(** Instants are counted in microseconds from 0001-01-01T00:00:00, the
    smallest [datetime]; the text '%Y-%m-%dT%H:%M:%S.%fZ' that the script
    stores in [card['due']] is represented by the instant it denotes. *)
Definition datetime := Z.

Record Card := {
  card_id : string;
  card_name : string;
  card_desc : string;
  card_closed : bool;
  card_due : option datetime;   (* [None]: JSON null, a falsy [due] *)
  card_idLabels : list string;
  card_labels : list Label;
  card_idList : string;
  card_checklists : list Checklist
}.

(** The constants of [config.py] the script reads ([LABEL.*], [LIST.*]
    and [PROGRESS_LABELS]); the file is not part of the sources, its
    values are parameters of every definition below. *)
Record Config := {
  LABEL_SNOOZE : string;
  LABEL_IMPORTANT : string;
  LABEL_TOMORROW : string;
  LIST_TOMORROW : string;
  LIST_PROJECTS : string;
  PROGRESS_LABELS : gset string
}.

(** ** Calls of the Trello client *)

(** The keyword arguments of [trello.cards.update]: a field that is
    [None] is not sent; [upd_due = Some None] sends ['null']. *)
Record card_update := {
  upd_name : option string;
  upd_desc : option string;
  upd_closed : option bool;
  upd_due : option (option datetime);
  upd_idLabels : option (list string);
  upd_idList : option string
}.

Definition no_update : card_update :=
  {| upd_name := None; upd_desc := None; upd_closed := None;
     upd_due := None; upd_idLabels := None; upd_idList := None |}.

(** One constructor per client method the script calls.  The two calls
    that create an object record, as last argument, the identifier the
    remote store answers with. *)
Inductive call :=
| cards_update (card : string) (u : card_update)
| cards_delete_idLabel_idLabel (label card : string)
| cards_new_checklist (card name : string) (answer : string)
| cards_update_checkItem_idCheckItem (item card : string) (state : check_state)
| checklists_delete_checkItem_idCheckItem (item checklist : string)
| checklists_new_checkItem (checklist name : string) (checked : bool) (answer : string)
| checklists_delete (checklist : string)
| cards_delete (card : string).

(** ** Field assignments on a card dictionary *)

Definition set_name (v : string) (c : Card) : Card :=
  {| card_id := card_id c; card_name := v; card_desc := card_desc c;
     card_closed := card_closed c; card_due := card_due c;
     card_idLabels := card_idLabels c; card_labels := card_labels c;
     card_idList := card_idList c; card_checklists := card_checklists c |}.

Definition set_closed (v : bool) (c : Card) : Card :=
  {| card_id := card_id c; card_name := card_name c; card_desc := card_desc c;
     card_closed := v; card_due := card_due c;
     card_idLabels := card_idLabels c; card_labels := card_labels c;
     card_idList := card_idList c; card_checklists := card_checklists c |}.

Definition set_due (v : option datetime) (c : Card) : Card :=
  {| card_id := card_id c; card_name := card_name c; card_desc := card_desc c;
     card_closed := card_closed c; card_due := v;
     card_idLabels := card_idLabels c; card_labels := card_labels c;
     card_idList := card_idList c; card_checklists := card_checklists c |}.

Definition set_idLabels (v : list string) (c : Card) : Card :=
  {| card_id := card_id c; card_name := card_name c; card_desc := card_desc c;
     card_closed := card_closed c; card_due := card_due c;
     card_idLabels := v; card_labels := card_labels c;
     card_idList := card_idList c; card_checklists := card_checklists c |}.

Definition set_idList (v : string) (c : Card) : Card :=
  {| card_id := card_id c; card_name := card_name c; card_desc := card_desc c;
     card_closed := card_closed c; card_due := card_due c;
     card_idLabels := card_idLabels c; card_labels := card_labels c;
     card_idList := v; card_checklists := card_checklists c |}.

Definition set_checklists (v : list Checklist) (c : Card) : Card :=
  {| card_id := card_id c; card_name := card_name c; card_desc := card_desc c;
     card_closed := card_closed c; card_due := card_due c;
     card_idLabels := card_idLabels c; card_labels := card_labels c;
     card_idList := card_idList c; card_checklists := v |}.

(** ** Dates *)

Definition day_us : Z := 86400 * 1000000.

(** [datetime.max] is 9999-12-31T23:59:59.999999, the last microsecond of
    day 3652059 of the proleptic calendar. *)
Definition datetime_max : Z := 3652059 * day_us - 1.

(** The exceptions that leave the dollar handler. *)
Inductive exn := OverflowError | ValueError.

(** [timedelta(days=d)]: refused beyond 999999999 days. *)
Definition timedelta_days (d : Z) : option Z :=
  if bool_decide (Z.abs d <= 999999999) then Some (d * day_us) else None.

(** [t + delta] on a [datetime]: refused outside [datetime.min],
    [datetime.max]. *)
Definition datetime_add (t : datetime) (delta : Z) : option datetime :=
  if bool_decide (0 <= t + delta <= datetime_max) then Some (t + delta) else None.

(** ** Text *)

(** A Python [str] is a sequence of Unicode code points.  A text is kept
    here as the bytes of its UTF-8 encoding, the form in which the titles
    stand in this file: equality and concatenation of texts are those of
    the byte strings.  The pattern and [int] work on characters: [chars]
    cuts a text into its characters, each the bytes of one code point, and
    [code_point] decodes a character.  A byte that starts no well-formed
    character is passed on as a character of its own, without code
    point. *)

(** The byte lies in [lo, hi). *)
Definition lead (lo hi : N) (b : ascii) : bool :=
  ((lo <=? N_of_ascii b) && (N_of_ascii b <? hi))%N.

(** A continuation byte, [10xxxxxx]. *)
Definition trail (b : ascii) : bool := lead 128 192 b.

Fixpoint chars (s : string) : list string :=
  match s with
  | EmptyString => []
  | String b1 s1 =>
      match s1 with
      | String b2 s2 =>
          if lead 194 224 b1 && trail b2
          then String b1 (String b2 EmptyString) :: chars s2
          else
            match s2 with
            | String b3 s3 =>
                if lead 224 240 b1 && trail b2 && trail b3
                then String b1 (String b2 (String b3 EmptyString)) :: chars s3
                else
                  match s3 with
                  | String b4 s4 =>
                      if lead 240 245 b1 && trail b2 && trail b3 && trail b4
                      then String b1 (String b2 (String b3 (String b4 EmptyString)))
                           :: chars s4
                      else String b1 EmptyString :: chars s1
                  | EmptyString => String b1 EmptyString :: chars s1
                  end
            | EmptyString => String b1 EmptyString :: chars s1
            end
      | EmptyString => [String b1 EmptyString]
      end
  end.

Definition payload (b : ascii) : N := (N_of_ascii b - 128)%N.

Definition code_point (c : string) : option N :=
  match c with
  | String b1 EmptyString =>
      if lead 0 128 b1 then Some (N_of_ascii b1) else None
  | String b1 (String b2 EmptyString) =>
      if lead 194 224 b1 && trail b2
      then Some ((N_of_ascii b1 - 192) * 64 + payload b2)%N
      else None
  | String b1 (String b2 (String b3 EmptyString)) =>
      if lead 224 240 b1 && trail b2 && trail b3
      then Some (((N_of_ascii b1 - 224) * 64 + payload b2) * 64 + payload b3)%N
      else None
  | String b1 (String b2 (String b3 (String b4 EmptyString))) =>
      if lead 240 245 b1 && trail b2 && trail b3 && trail b4
      then Some ((((N_of_ascii b1 - 240) * 64 + payload b2) * 64 + payload b3) * 64
                 + payload b4)%N
      else None
  | _ => None
  end.

(** The text made of the characters [cs]. *)
Definition join (cs : list string) : string := foldr String.append EmptyString cs.

(** The decimal digits (category Nd) of Unicode 11.0, the database of the
    interpreter the script names in its first line (python3.7).  Every
    range holds the digits 0 to 9 of one script in order; the
    mathematical digits U+1D7CE to U+1D7FF are five such runs. *)
Definition decimal_ranges : list (N * N) :=
  [(0x30, 0x39); (0x660, 0x669); (0x6F0, 0x6F9); (0x7C0, 0x7C9); (0x966, 0x96F);
   (0x9E6, 0x9EF); (0xA66, 0xA6F); (0xAE6, 0xAEF); (0xB66, 0xB6F); (0xBE6, 0xBEF);
   (0xC66, 0xC6F); (0xCE6, 0xCEF); (0xD66, 0xD6F); (0xDE6, 0xDEF); (0xE50, 0xE59);
   (0xED0, 0xED9); (0xF20, 0xF29); (0x1040, 0x1049); (0x1090, 0x1099);
   (0x17E0, 0x17E9); (0x1810, 0x1819); (0x1946, 0x194F); (0x19D0, 0x19D9);
   (0x1A80, 0x1A89); (0x1A90, 0x1A99); (0x1B50, 0x1B59); (0x1BB0, 0x1BB9);
   (0x1C40, 0x1C49); (0x1C50, 0x1C59); (0xA620, 0xA629); (0xA8D0, 0xA8D9);
   (0xA900, 0xA909); (0xA9D0, 0xA9D9); (0xA9F0, 0xA9F9); (0xAA50, 0xAA59);
   (0xABF0, 0xABF9); (0xFF10, 0xFF19); (0x104A0, 0x104A9); (0x10D30, 0x10D39);
   (0x11066, 0x1106F); (0x110F0, 0x110F9); (0x11136, 0x1113F); (0x111D0, 0x111D9);
   (0x112F0, 0x112F9); (0x11450, 0x11459); (0x114D0, 0x114D9); (0x11650, 0x11659);
   (0x116C0, 0x116C9); (0x11730, 0x11739); (0x118E0, 0x118E9); (0x11C50, 0x11C59);
   (0x11D50, 0x11D59); (0x11DA0, 0x11DA9); (0x16A60, 0x16A69); (0x16B50, 0x16B59);
   (0x1D7CE, 0x1D7FF); (0x1E950, 0x1E959)]%N.

(** [Py_UNICODE_TODECIMAL]: the value of a decimal digit, [None] for any
    other code point. *)
Definition decimal (n : N) : option N :=
  (λ r, ((n - r.1) mod 10)%N)
    <$> List.find (λ r, (r.1 <=? n)%N && (n <=? r.2)%N) decimal_ranges.

(** The white space of the database. *)
Definition space_points : list N :=
  [0x9; 0xA; 0xB; 0xC; 0xD; 0x1C; 0x1D; 0x1E; 0x1F; 0x20; 0x85; 0xA0; 0x1680;
   0x2000; 0x2001; 0x2002; 0x2003; 0x2004; 0x2005; 0x2006; 0x2007; 0x2008;
   0x2009; 0x200A; 0x2028; 0x2029; 0x202F; 0x205F; 0x3000]%N.

(** [Py_UNICODE_ISSPACE] *)
Definition isspace (n : N) : bool := bool_decide (n ∈ space_points).

(** ** The pattern [\$\d*] *)

(** [\d] in a pattern over [str]: any decimal digit of the database. *)
Definition is_digit (c : string) : bool :=
  match code_point c ≫= decimal with Some _ => true | None => false end.

(** The byte of the dollar, which is part of no other character. *)
Definition is_dollar (c : ascii) : bool := Ascii.eqb c "$".

(** What [\d*] consumes at the head of [cs], and what it leaves. *)
Fixpoint digits_of (cs : list string) : list string :=
  match cs with
  | c :: cs' => if is_digit c then c :: digits_of cs' else []
  | [] => []
  end.

Fixpoint after_digits (cs : list string) : list string :=
  match cs with
  | c :: cs' => if is_digit c then after_digits cs' else cs
  | [] => cs
  end.

(** The matches from left to right, the scan resuming behind each
    match. *)
Fixpoint findall_from (cs : list string) : list string :=
  match cs with
  | [] => []
  | c :: cs' =>
      if bool_decide (c = "$"%string)
      then (c +:+ join (digits_of cs')) :: findall_from (after_digits cs')
      else findall_from cs'
  end.

(** [re.findall(pattern, s)] *)
Definition findall (s : string) : list string := findall_from (chars s).

Fixpoint sub_from (cs : list string) : string :=
  match cs with
  | [] => EmptyString
  | c :: cs' =>
      if bool_decide (c = "$"%string) then sub_from (after_digits cs')
      else c +:+ sub_from cs'
  end.

(** [re.sub(pattern, "", s)] *)
Definition sub_empty (s : string) : string := sub_from (chars s).

(** [s.lstrip("$")] *)
Fixpoint lstrip_dollar (s : string) : string :=
  match s with
  | String c s' => if is_dollar c then lstrip_dollar s' else s
  | EmptyString => s
  end.

(** ** [int] *)

(** [int(s)] on a [str] turns the text into ASCII and hands it to the
    parser of integer literals.  [to_ascii] is
    [_PyUnicode_TransformDecimalAndSpaceToASCII]: a code point below 127
    is kept, white space becomes a blank, a decimal digit of any script
    the ASCII digit of its value, and the first character that is none of
    these becomes a question mark that ends the text. *)
Fixpoint to_ascii (cs : list string) : list N :=
  match cs with
  | [] => []
  | c :: cs' =>
      match code_point c with
      | Some n =>
          if (n <? 127)%N then n :: to_ascii cs'
          else if isspace n then 32%N :: to_ascii cs'
          else match decimal n with
               | Some v => (48 + v)%N :: to_ascii cs'
               | None => [63%N]
               end
      | None => [63%N]
      end
  end.

(** [Py_ISSPACE] *)
Definition Py_ISSPACE (n : N) : bool := ((9 <=? n) && (n <=? 13) || (n =? 32))%N.

Fixpoint skip_spaces (l : list N) : list N :=
  match l with
  | n :: l' => if Py_ISSPACE n then skip_spaces l' else l
  | [] => l
  end.

(** The loop over digits and underscores: [prev] says that the last
    character was an underscore, [seen] that a digit has been read.
    [None]: two underscores in a row, or one at the end. *)
Fixpoint scan_digits (prev : bool) (seen : bool) (acc : Z) (l : list N)
  : option (Z * bool * list N) :=
  match l with
  | n :: l' =>
      if ((48 <=? n) && (n <=? 57))%N
      then scan_digits false true (10 * acc + (Z.of_N n - 48)) l'
      else if (n =? 95)%N
           then if prev then None else scan_digits true seen acc l'
           else if prev then None else Some (acc, seen, l)
  | [] => if prev then None else Some (acc, seen, l)
  end.

(** [PyLong_FromString(s, &end, 10)] together with the test of [int] that
    the literal ends where the text ends: blanks, a sign, digits with
    single underscores between them, blanks.  [None]: [ValueError]. *)
Definition PyLong_FromString (l : list N) : option Z :=
  let l := skip_spaces l in
  let '(sign, l) :=
    match l with
    | n :: l' => if (n =? 43)%N then (1, l') else if (n =? 45)%N then (-1, l') else (1, l)
    | [] => (1, l)
    end in
  match l with
  | n :: _ => if (n =? 95)%N then None
              else match scan_digits false false 0 l with
                   | Some (z, true, rest) =>
                       match skip_spaces rest with
                       | [] => Some (sign * z)
                       | _ :: _ => None
                       end
                   | _ => None
                   end
  | [] => None
  end.

(** [int(s)] *)
Definition int (s : string) : Z + exn :=
  match PyLong_FromString (to_ascii (chars s)) with
  | Some z => inl z
  | None => inr ValueError
  end.

(** ** The steps on one card *)

Definition carries (label : string) (card : Card) : bool :=
  bool_decide (label ∈ card_idLabels card).

Definition integrity_reason : string :=
  "Card does have delay label without any date set".

(** [integrity_check(card)] *)
Definition integrity_check (cfg : Config) (card : Card) : bool * option string :=
  if card_closed card && carries (LABEL_SNOOZE cfg) card
     && bool_decide (card_due card = None)
  then (false, Some integrity_reason)
  else (true, None).

(** [handle_dollar_snoozing(trello, card)]; [utcnow] is the reading of
    [datetime.utcnow()].  The result is the card dictionary after the
    call and the client calls made, or the exception that leaves the
    function. *)
Definition handle_dollar_snoozing (cfg : Config) (utcnow : datetime) (card : Card)
  : Card * list call + exn :=
  match last (findall (card_name card)) with
  | None => inl (card, [])
  | Some m =>
      let substr := lstrip_dollar m in
      match (if bool_decide (substr = EmptyString) then inl 1 else int substr) with
      | inr e => inr e
      | inl delay =>
          match timedelta_days delay ≫= datetime_add utcnow with
          | None => inr OverflowError
          | Some delay_time =>
              let name := sub_empty (card_name card) in
              let idLabels := card_idLabels card ++ [LABEL_SNOOZE cfg] in
              let card' :=
                set_idLabels idLabels (set_due (Some delay_time) (set_name name card)) in
              inl (card',
                   [cards_update (card_id card)
                      {| upd_name := Some name; upd_desc := None; upd_closed := None;
                         upd_due := Some (Some delay_time);
                         upd_idLabels := Some idLabels; upd_idList := None |}])
          end
      end
  end.

(** [snooze_card(trello, card)]; a falsy [card['due']] is the branch
    [None], the date parsed by [strptime] the branch [Some]. *)
Definition snooze_card (cfg : Config) (utcnow : datetime) (card : Card)
  : Card * list call :=
  match card_due card with
  | Some card_due =>
      if negb (carries (LABEL_SNOOZE cfg) card) then (card, [])
      else if card_closed card then (card, [])
      else if bool_decide (utcnow > card_due) then (card, [])
      else (set_closed true card,
            [cards_update (card_id card)
               {| upd_name := None; upd_desc := None; upd_closed := Some true;
                  upd_due := None; upd_idLabels := None; upd_idList := None |}])
  | None => (card, [])
  end.

(** [wake_card(trello, card)], with the same reading of [card['due']]. *)
Definition wake_card (cfg : Config) (utcnow : datetime) (card : Card)
  : Card * list call :=
  match card_due card with
  | Some card_due =>
      if negb (carries (LABEL_SNOOZE cfg) card) then (card, [])
      else if bool_decide (utcnow < card_due) then (card, [])
      else (set_due None (set_closed false card),
            [cards_update (card_id card)
               {| upd_name := None; upd_desc := None; upd_closed := Some false;
                  upd_due := Some None; upd_idLabels := None; upd_idList := None |}])
  | None => (card, [])
  end.

(** [l.remove(x)]: the first element equal to [x] leaves the list.
    (Python raises [ValueError] when there is none; the script only
    removes an element it has just found in the list.) *)
Fixpoint py_remove {A} `{EqDecision A} (x : A) (l : list A) : list A :=
  match l with
  | [] => []
  | y :: l' => if decide (x = y) then l' else y :: py_remove x l'
  end.

(** ** The first loop: integrity, dollar, snooze, wake *)

(** The three places of the loop body that read [datetime.utcnow()]. *)
Record utc_readings := {
  at_dollar : datetime;
  at_snooze : datetime;
  at_wake : datetime
}.

Definition nl : string := String "010" EmptyString.

(** The keyword arguments of the update that returns a broken card. *)
Definition restored (cfg : Config) (reason : option string) (card : Card) : card_update :=
  {| upd_name := Some ("[RESTORED] " +:+ card_name card);
     upd_desc := Some ("**This card was restored**" +:+ nl +:+ default "None" reason
                         +:+ nl +:+ nl +:+ card_desc card);
     upd_closed := Some false;
     upd_due := Some None;
     upd_idLabels := Some (card_idLabels card ++ [LABEL_IMPORTANT cfg]);
     upd_idList := None |}.

(** The body of [for card in cards] (lines 146 to 167). *)
Definition process_card (cfg : Config) (now : utc_readings) (card : Card)
  : Card * list call + exn :=
  let '(ok, reason) := integrity_check cfg card in
  if negb ok then inl (card, [cards_update (card_id card) (restored cfg reason card)])
  else
    match handle_dollar_snoozing cfg (at_dollar now) card with
    | inr e => inr e
    | inl (card, calls1) =>
        let '(card, calls2) := snooze_card cfg (at_snooze now) card in
        let '(card, calls3) := wake_card cfg (at_wake now) card in
        inl (card, calls1 ++ calls2 ++ calls3)
    end.

(** [not c['closed'] or set(c['idLabels']) & PROGRESS_LABELS] *)
Definition in_working_set (cfg : Config) (c : Card) : bool :=
  negb (card_closed c)
  || bool_decide ((list_to_set (card_idLabels c) : gset string) ∩ PROGRESS_LABELS cfg ≠ ∅).

(** A list comprehension over [data] keeps references to the card
    dictionaries it selects: it is the list of their positions. *)
Fixpoint positions (p : Card → bool) (i : nat) (data : list Card) : list nat :=
  match data with
  | [] => []
  | c :: data' => if p c then i :: positions p (S i) data' else positions p (S i) data'
  end.

Definition working_set (cfg : Config) (data : list Card) : list nat :=
  positions (in_working_set cfg) 0 data.

(** The first loop.  [clock n] holds the readings of the clock during
    iteration [n]; an exception ends the run with the calls made so far. *)
Fixpoint first_loop (cfg : Config) (clock : nat → utc_readings) (n : nat)
    (cards : list nat) (data : list Card) : list Card * list call * option exn :=
  match cards with
  | [] => (data, [], None)
  | i :: cards' =>
      match data !! i with
      | None => first_loop cfg clock (S n) cards' data
      | Some card =>
          match process_card cfg (clock n) card with
          | inr e => (data, [], Some e)
          | inl (card', calls) =>
              let '(data', calls', e) :=
                first_loop cfg clock (S n) cards' (<[i := card']> data) in
              (data', calls ++ calls', e)
          end
      end
  end.

(** ** Tomorrow scheduling *)

(** [time(h, m, s)], in microseconds from midnight. *)
Definition time (h m s : Z) : Z := ((h * 60 + m) * 60 + s) * 1000000.

Definition in_nightly_window (current_time : Z) : bool :=
  bool_decide (time 1 0 0 <= current_time <= time 2 0 0).

(** The body of the loop of lines 175 to 186. *)
Definition schedule_tomorrow (cfg : Config) (card : Card) : Card * list call :=
  if negb (carries (LABEL_TOMORROW cfg) card) then (card, [])
  else
    let card' :=
      set_idLabels (py_remove (LABEL_TOMORROW cfg) (card_idLabels card))
        (set_idList (LIST_TOMORROW cfg) card) in
    (card',
     [cards_update (card_id card)
        {| upd_name := None; upd_desc := None; upd_closed := None;
           upd_due := None; upd_idLabels := None;
           upd_idList := Some (LIST_TOMORROW cfg) |};
      cards_delete_idLabel_idLabel (LABEL_TOMORROW cfg) (card_id card)]).

Fixpoint for_cards (body : Card → Card * list call) (cards : list nat)
    (data : list Card) : list Card * list call :=
  match cards with
  | [] => (data, [])
  | i :: cards' =>
      match data !! i with
      | None => for_cards body cards' data
      | Some card =>
          let '(card', calls) := body card in
          let '(data', calls') := for_cards body cards' (<[i := card']> data) in
          (data', calls ++ calls')
      end
  end.

(** Lines 171 to 186; [current_time] is [datetime.now().time()]. *)
Definition tomorrow_scheduling (cfg : Config) (current_time : Z)
    (cards : list nat) (data : list Card) : list Card * list call :=
  if in_nightly_window current_time then for_cards (schedule_tomorrow cfg) cards data
  else (data, []).

(** ** The project aggregator (lines 190 to 215) *)

Definition colorless (a : Label) : bool := bool_decide (label_color a = None).

(** [cards = [c for c in data if any(a['color'] is None for a in c['labels'])]] *)
Definition project_related (data : list Card) : list Card :=
  filter (λ c, existsb colorless (card_labels c) = true) data.

(** The loop over the labels of one contributing card. *)
Fixpoint add_card (card : Card) (labels : list Label)
    (projects : gmap string (list (string * bool))) : gmap string (list (string * bool)) :=
  match labels with
  | [] => projects
  | label :: labels' =>
      if negb (colorless label) then add_card card labels' projects
      else
        let projects :=
          if bool_decide (label_id label ∉ dom projects)
          then <[label_id label := []]> projects else projects in
        add_card card labels'
          (<[label_id label :=
               default [] (projects !! label_id label)
                 ++ [(card_name card, card_closed card)]]> projects)
  end.

Fixpoint aggregate_from (cfg : Config) (cards : list Card)
    (projects : gmap string (list (string * bool))) (project_cards : list Card)
  : gmap string (list (string * bool)) * list Card :=
  match cards with
  | [] => (projects, project_cards)
  | card :: cards' =>
      if bool_decide (card_idList card = LIST_PROJECTS cfg)
      then aggregate_from cfg cards' projects (project_cards ++ [card])
      else if carries (LABEL_SNOOZE cfg) card
      then aggregate_from cfg cards' projects project_cards
      else aggregate_from cfg cards' (add_card card (card_labels card) projects) project_cards
  end.

Definition aggregate (cfg : Config) (cards : list Card)
  : gmap string (list (string * bool)) * list Card :=
  aggregate_from cfg cards ∅ [].

(** ** The checklist reconciler (lines 219 to 265) *)

(** The two conditional updates of lines 242 to 248. *)
Definition state_updates (card : Card) (item : CheckItem) (closed : bool) : list call :=
  (if closed && bool_decide (item_state item ≠ complete)
   then [cards_update_checkItem_idCheckItem (item_id item) (card_id card) complete]
   else [])
  ++
  (if negb closed && bool_decide (item_state item ≠ incomplete)
   then [cards_update_checkItem_idCheckItem (item_id item) (card_id card) incomplete]
   else []).

(** The inner loop [for desc, closed in projects[label['id']]] for one
    item: [whole] is the list held by the dictionary, [rest] what the
    iteration has still to visit.  [None]: the loop ran to its end without
    [break], which is the [else] branch. *)
Fixpoint match_item (card : Card) (item : CheckItem)
    (whole rest : list (string * bool)) : option (list call * list (string * bool)) :=
  match rest with
  | [] => None
  | (desc, closed) :: rest' =>
      if bool_decide (desc ≠ item_name item) then match_item card item whole rest'
      else Some (state_updates card item closed, py_remove (desc, closed) whole)
  end.

(** [for item in checklist['checkItems']]: the calls made and the list
    left in the dictionary. *)
Fixpoint reconcile_items (card : Card) (checklist : string) (items : list CheckItem)
    (entries : list (string * bool)) : list call * list (string * bool) :=
  match items with
  | [] => ([], entries)
  | item :: items' =>
      let '(calls, entries') :=
        match match_item card item entries entries with
        | Some r => r
        | None => ([checklists_delete_checkItem_idCheckItem (item_id item) checklist], entries)
        end in
      let '(calls', entries'') := reconcile_items card checklist items' entries' in
      (calls ++ calls', entries'')
  end.

(** The loop of lines 256 and 257.  [fresh k] is the identifier the remote
    store hands out for the [k]-th object created through the client. *)
Fixpoint new_items (fresh : nat → string) (k : nat) (checklist : string)
    (entries : list (string * bool)) : list call * nat :=
  match entries with
  | [] => ([], k)
  | (desc, closed) :: entries' =>
      let '(calls, k') := new_items fresh (S k) checklist entries' in
      (checklists_new_checkItem checklist desc closed (fresh k) :: calls, k')
  end.

Definition project_checklist_name (card : Card) : string := "@" +:+ card_name card.

(** [next((c for c in card['checklists'] if c['name'] == name), None)] *)
Fixpoint next_checklist (name : string) (checklists : list Checklist) : option Checklist :=
  match checklists with
  | [] => None
  | c :: checklists' =>
      if bool_decide (checklist_name c = name) then Some c
      else next_checklist name checklists'
  end.

(** Lines 231 to 259, for the label the loop stopped at.  The checklist
    the client answers with after [new_checklist] carries the identifier
    of the remote store and no item. *)
Definition reconcile_label (fresh : nat → string) (k : nat)
    (projects : gmap string (list (string * bool))) (card : Card) (label : Label)
    (entries : list (string * bool))
  : nat * gmap string (list (string * bool)) * list call :=
  let '(checklist, k, calls0) :=
    match next_checklist (project_checklist_name card) (card_checklists card) with
    | Some checklist => (checklist, k, [])
    | None =>
        ({| checklist_id := fresh k; checklist_name := project_checklist_name card;
            checkItems := [] |},
         S k,
         [cards_new_checklist (card_id card) (project_checklist_name card) (fresh k)])
    end in
  let '(calls1, entries') :=
    reconcile_items card (checklist_id checklist) (checkItems checklist) entries in
  let '(calls2, k) := new_items fresh k (checklist_id checklist) entries' in
  (k, <[label_id label := entries']> projects, calls0 ++ calls1 ++ calls2).

(** [for label in card['labels']: ... else: ...] of lines 221 to 265. *)
Fixpoint reconcile_labels (fresh : nat → string) (k : nat)
    (projects : gmap string (list (string * bool))) (card : Card) (labels : list Label)
  : nat * gmap string (list (string * bool)) * list call :=
  match labels with
  | [] =>
      (k, projects,
       match next_checklist (project_checklist_name card) (card_checklists card) with
       | Some checklist => [checklists_delete (checklist_id checklist)]
       | None => []
       end)
  | label :: labels' =>
      if bool_decide (label_name label ≠ card_name card) || negb (colorless label)
      then reconcile_labels fresh k projects card labels'
      else
        match projects !! label_id label with
        | None => reconcile_labels fresh k projects card labels'
        | Some entries => reconcile_label fresh k projects card label entries
        end
  end.

Definition reconcile_card (fresh : nat → string) (k : nat)
    (projects : gmap string (list (string * bool))) (card : Card)
  : nat * gmap string (list (string * bool)) * list call :=
  reconcile_labels fresh k projects card (card_labels card).

(** [for card in project_cards] *)
Fixpoint reconciler (fresh : nat → string) (k : nat)
    (projects : gmap string (list (string * bool))) (project_cards : list Card)
  : nat * gmap string (list (string * bool)) * list call :=
  match project_cards with
  | [] => (k, projects, [])
  | card :: project_cards' =>
      let '(k, projects, calls) := reconcile_card fresh k projects card in
      let '(k, projects, calls') := reconciler fresh k projects project_cards' in
      (k, projects, calls ++ calls')
  end.

(** ** Housekeeping (lines 269 to 273) *)

Definition check_card_name : string := "[CHECK] Problem with Trello script".

Fixpoint housekeeping (cards : list Card) : list call :=
  match cards with
  | [] => []
  | card :: cards' =>
      if bool_decide (card_name card = check_card_name) then [cards_delete (card_id card)]
      else housekeeping cards'
  end.

(** ** The run *)

Record Clock := {
  utcnow : nat → utc_readings;   (* per iteration of the first loop *)
  now_time : Z                   (* [datetime.now().time()] *)
}.

(** The aggregator and the reconciler on the card list of line 190. *)
Definition projects_stage (cfg : Config) (fresh : nat → string) (k : nat)
    (cards : list Card) : nat * list call :=
  let '(projects, project_cards) := aggregate cfg cards in
  let '(k, _, calls) := reconciler fresh k projects project_cards in
  (k, calls).

(** [main()] after the lock and the set-up of the logger: the calls made
    on the board [data], and the exception that ended the run, if any. *)
Definition main (cfg : Config) (fresh : nat → string) (clock : Clock)
    (data : list Card) : list call * option exn :=
  let cards := working_set cfg data in
  let '(data, calls1, e) := first_loop cfg (utcnow clock) 0 cards data in
  match e with
  | Some e => (calls1, Some e)
  | None =>
      let '(data, calls2) := tomorrow_scheduling cfg (now_time clock) cards data in
      let cards := project_related data in
      let '(_, calls3) := projects_stage cfg fresh 0 cards in
      (calls1 ++ calls2 ++ calls3 ++ housekeeping cards, None)
  end.

(** ** The remote store *)

Definition state_of_checked (checked : bool) : check_state :=
  if checked then complete else incomplete.

Definition set_checkItems (v : list CheckItem) (l : Checklist) : Checklist :=
  {| checklist_id := checklist_id l; checklist_name := checklist_name l;
     checkItems := v |}.

Definition set_state (v : check_state) (i : CheckItem) : CheckItem :=
  {| item_id := item_id i; item_name := item_name i; item_state := v |}.

(** Modelled from the spec: the reaction of the board to the checklist
    calls of the client (section 6 of the specification; the Trello
    service is outside the repository).  A created object goes to the end
    of its container under the identifier recorded in the call; updates
    and deletions address objects by identifier; the calls on cards leave
    the checklists as they are.  [remote_items] is the reaction of the
    items of the checklist [checklist] on the card [card]. *)
Definition remote_items (card checklist : string) (c : call)
    (items : list CheckItem) : list CheckItem :=
  match c with
  | checklists_new_checkItem cl name checked answer =>
      if bool_decide (cl = checklist)
      then items ++ [{| item_id := answer; item_name := name;
                        item_state := state_of_checked checked |}]
      else items
  | cards_update_checkItem_idCheckItem item cid state =>
      if bool_decide (cid = card)
      then (λ i, if bool_decide (item_id i = item) then set_state state i else i) <$> items
      else items
  | checklists_delete_checkItem_idCheckItem item cl =>
      if bool_decide (cl = checklist)
      then filter (λ i, item_id i ≠ item) items
      else items
  | _ => items
  end.

Definition remote_call (c : call) (card : Card) : Card :=
  match c with
  | cards_new_checklist cid name answer =>
      if bool_decide (cid = card_id card)
      then set_checklists
             (card_checklists card
                ++ [{| checklist_id := answer; checklist_name := name; checkItems := [] |}])
             card
      else card
  | checklists_delete cl =>
      set_checklists (filter (λ l, checklist_id l ≠ cl) (card_checklists card)) card
  | checklists_new_checkItem _ _ _ _
  | cards_update_checkItem_idCheckItem _ _ _
  | checklists_delete_checkItem_idCheckItem _ _ =>
      set_checklists
        ((λ l, set_checkItems
                 (remote_items (card_id card) (checklist_id l) c (checkItems l)) l)
           <$> card_checklists card)
        card
  | cards_update _ _ | cards_delete_idLabel_idLabel _ _ | cards_delete _ => card
  end.

(** The board after a sequence of calls. *)
Definition remote_apply (calls : list call) (board : list Card) : list Card :=
  foldl (λ board c, map (remote_call c) board) board calls.

(** ** Sample boards *)

Module Samples.

Definition config : Config :=
  {| LABEL_SNOOZE := "snooze"; LABEL_IMPORTANT := "important";
     LABEL_TOMORROW := "tomorrow"; LIST_TOMORROW := "list-tomorrow";
     LIST_PROJECTS := "list-projects"; PROGRESS_LABELS := {["snooze"]} |}.

Definition fresh (k : nat) : string := "new" +:+ pretty k.

(** 2026-01-01T00:00:00: day 739617 of the calendar. *)
Definition new_year : datetime := 739616 * day_us.

Definition hour : Z := 3600 * 1000000.

Definition readings (t : datetime) : utc_readings :=
  {| at_dollar := t; at_snooze := t + 1; at_wake := t + 2 |}.

Definition clock : Clock :=
  {| utcnow := λ n, readings (new_year + Z.of_nat n * 1000); now_time := time 12 0 0 |}.

(** An open card on the list "list-todo", without labels. *)
Definition plain (id name : string) : Card :=
  {| card_id := id; card_name := name; card_desc := ""; card_closed := false;
     card_due := None; card_idLabels := []; card_labels := [];
     card_idList := "list-todo"; card_checklists := [] |}.

Definition with_labels (labels : list Label) (c : Card) : Card :=
  {| card_id := card_id c; card_name := card_name c; card_desc := card_desc c;
     card_closed := card_closed c; card_due := card_due c;
     card_idLabels := map label_id labels; card_labels := labels;
     card_idList := card_idList c; card_checklists := card_checklists c |}.

Definition snooze_label : Label :=
  {| label_id := "snooze"; label_name := "Snooze"; label_color := Some "sky" |}.

Definition tomorrow_label : Label :=
  {| label_id := "tomorrow"; label_name := "Tomorrow"; label_color := Some "lime" |}.

(** The project label "Garden". *)
Definition garden : Label :=
  {| label_id := "lbl-garden"; label_name := "Garden"; label_color := None |}.

Definition buy_milk : Card := plain "c1" "Buy milk $3".

Definition pay_rent : Card := plain "c2" "Pay rent $9999999".

Definition call_back : Card := with_labels [snooze_label] (plain "c3" "Call back $").

(** An open card that sleeps until one o'clock of new year's day. *)
Definition napping : Card :=
  set_due (Some (new_year + hour)) (with_labels [snooze_label] (plain "c4" "Write report")).

(** An archived card with the snooze label and no date. *)
Definition broken : Card :=
  {| card_id := "c5"; card_name := "Order seeds"; card_desc := "notes";
     card_closed := true; card_due := None; card_idLabels := ["snooze"];
     card_labels := [snooze_label]; card_idList := "list-todo";
     card_checklists := [] |}.

Definition night_clock : Clock :=
  {| utcnow := λ n, readings (new_year + Z.of_nat n * 1000); now_time := time 1 30 0 |}.

(** An archived card labelled for tomorrow. *)
Definition archived : Card :=
  set_closed true (with_labels [tomorrow_label] (plain "c6" "Water plants")).

(** An open card labelled for tomorrow. *)
Definition errand : Card := with_labels [tomorrow_label] (plain "c7" "Post letter").

(** The card the monitor leaves on the board. *)
Definition check_card : Card := plain "c8" "[CHECK] Problem with Trello script".

Definition garden_checklist : Checklist :=
  {| checklist_id := "cl1"; checklist_name := "@Garden";
     checkItems := [{| item_id := "i1"; item_name := "Dig beds";
                       item_state := incomplete |}] |}.

(** A card named "Garden" on the projects list that has lost its
    label and still owns the checklist of the project. *)
Definition bare_master : Card :=
  set_checklists [garden_checklist] (set_idList "list-projects" (plain "m0" "Garden")).

(** A task of the project. *)
Definition dig_beds : Card := with_labels [garden] (plain "t1" "Dig beds").

(** The master card of the project, and a second card of the same
    name and label on the projects list. *)
Definition garden_master : Card :=
  set_idList "list-projects" (with_labels [garden] (plain "m1" "Garden")).

Definition garden_twin : Card :=
  set_idList "list-projects" (with_labels [garden] (plain "m2" "Garden")).

Definition twin_checklist : Checklist :=
  {| checklist_id := "cl2"; checklist_name := "@Garden";
     checkItems := [{| item_id := "i2"; item_name := "Dig beds";
                       item_state := incomplete |}] |}.

Definition garden_board : list Card := [garden_master; dig_beds].

(** Both masters without a checklist. *)
Definition twin_board : list Card := [garden_master; garden_twin; dig_beds].

(** Both masters with a checklist that mirrors the project. *)
Definition mirrored_twin_board : list Card :=
  [set_checklists [garden_checklist] garden_master;
   set_checklists [twin_checklist] garden_twin;
   dig_beds].

(** The master with its checklist, alone on the board. *)
Definition orphan_master : Card := set_checklists [garden_checklist] garden_master.

Definition orphan_board : list Card := [orphan_master].

(** An open card whose title asks for no day at all. *)
Definition ping : Card := plain "c9" "Ping $0".

(** A card with the snooze label whose title asks for a date beyond the
    calendar. *)
Definition far_off : Card :=
  with_labels [snooze_label] (plain "c13" "Call back $9999999").

(** A card whose directive is written with an Arabic-Indic digit. *)
Definition buy_bread : Card := plain "c14" "Buy bread $٣".

(** An archived card that sleeps until one o'clock of new year's day. *)
Definition sleeping : Card := set_closed true napping.

(** A card that none of the steps has a reason to touch. *)
Definition unmarked : Card := plain "c10" "Read mail".

Definition garden_items : list CheckItem :=
  [{| item_id := "i1"; item_name := "Dig beds"; item_state := incomplete |};
   {| item_id := "i3"; item_name := "Mow lawn"; item_state := complete |}].

Definition garden_entries : list (string * bool) :=
  [("Dig beds", true); ("Sow beans", false)].

Definition garden_projects : gmap string (list (string * bool)) :=
  {[ "lbl-garden" := garden_entries ]}.

(** A board on which the second card of the working set asks for a date
    beyond the calendar. *)
Definition overflow_board : list Card :=
  [unmarked; pay_rent; with_labels [garden] check_card].

Definition quiet_board : list Card := [unmarked; plain "c11" "Call home"].

Definition check_board : list Card :=
  [dig_beds; with_labels [garden] check_card;
   with_labels [garden] (plain "c12" "[CHECK] Problem with Trello script")].

End Samples.

(** ** Vocabulary of the statements *)

(** A character as [chars] cuts it: one byte, or a lead byte with its
    continuation bytes. *)
Definition is_char (c : string) : Prop :=
  match c with
  | String b1 EmptyString => True
  | String b1 (String b2 EmptyString) => lead 194 224 b1 && trail b2 = true
  | String b1 (String b2 (String b3 EmptyString)) =>
      lead 224 240 b1 && trail b2 && trail b3 = true
  | String b1 (String b2 (String b3 (String b4 EmptyString))) =>
      lead 240 245 b1 && trail b2 && trail b3 && trail b4 = true
  | _ => False
  end.

(** The text is a run of decimal digits. *)
Definition all_digits (s : string) : bool := forallb is_digit (chars s).

Fixpoint has_dollar (s : string) : bool :=
  match s with
  | EmptyString => false
  | String c s' => is_dollar c || has_dollar s'
  end.

(** The value of a decimal digit, and the number that a run of decimal
    digits writes. *)
Definition digit_value (c : string) : Z :=
  match code_point c ≫= decimal with Some v => Z.of_N v | None => 0 end.

Fixpoint value_from (acc : Z) (cs : list string) : Z :=
  match cs with
  | [] => acc
  | c :: cs' => value_from (10 * acc + digit_value c) cs'
  end.

Definition digits_value (s : string) : Z := value_from 0 (chars s).

(** The ASCII digit that stands for a decimal digit of any script. *)
Definition digit_point (c : string) : N := (48 + Z.to_N (digit_value c))%N.

(** The day count a title asks for: what [int] reads in the digits of
    its last directive, one day when there are none. *)
Definition directive_days (name : string) : option Z :=
  match last (findall name) with
  | Some m =>
      if bool_decide (lstrip_dollar m = EmptyString) then Some 1
      else match int (lstrip_dollar m) with
           | inl days => Some days
           | inr _ => None
           end
  | None => None
  end.

(** The update the dollar handler sends. *)
Definition dollar_update (name : string) (due : datetime) (idLabels : list string)
  : card_update :=
  {| upd_name := Some name; upd_desc := None; upd_closed := None;
     upd_due := Some (Some due); upd_idLabels := Some idLabels; upd_idList := None |}.

(** The card snoozed for [days] days under the title [name]: the title
    is [name], due is [days] days from [now], the snooze label is added
    behind the labels of the card, and the three fields are sent. *)
Definition snoozed_for (cfg : Config) (now : datetime) (days : Z) (name : string)
    (card : Card) : Card * list call :=
  (set_idLabels (card_idLabels card ++ [LABEL_SNOOZE cfg])
     (set_due (Some (now + days * day_us)) (set_name name card)),
   [cards_update (card_id card)
      (dollar_update name (now + days * day_us)
         (card_idLabels card ++ [LABEL_SNOOZE cfg]))]).

(** The card is a task of the project [l]: it is outside the projects
    list, does not carry the snooze label and has a colorless label with
    identifier [l]. *)
Definition contributes (cfg : Config) (l : string) (card : Card) : Prop :=
  card_idList card ≠ LIST_PROJECTS cfg
  ∧ (LABEL_SNOOZE cfg ∉ card_idLabels card)
  ∧ Exists (λ a, label_color a = None ∧ label_id a = l) (card_labels card).

#[global] Instance contributes_dec cfg l card : Decision (contributes cfg l card).
Proof. unfold contributes. apply _. Defined.

(** How often the colorless label [l] occurs among the labels. *)
Definition label_count (l : string) (labels : list Label) : nat :=
  length (filter (λ a, label_color a = None ∧ label_id a = l) labels).

(** What one card adds to the list of the project [l]. *)
Definition card_entries (cfg : Config) (l : string) (card : Card) : list (string * bool) :=
  if bool_decide (card_idList card = LIST_PROJECTS cfg) then []
  else if carries (LABEL_SNOOZE cfg) card then []
  else replicate (label_count l (card_labels card)) (card_name card, card_closed card).

(** The checklist that the [else] branch of the label loop deletes. *)
Definition orphan_cleanup (card : Card) : list call :=
  match next_checklist ("@" +:+ card_name card) (card_checklists card) with
  | Some checklist => [checklists_delete (checklist_id checklist)]
  | None => []
  end.

(** The first entry of the title [name]: its flag, and the list without
    the entry. *)
Fixpoint consume (name : string) (entries : list (string * bool))
  : option (bool * list (string * bool)) :=
  match entries with
  | [] => None
  | (desc, closed) :: entries' =>
      if bool_decide (desc = name) then Some (closed, entries')
      else (λ r, (r.1, (desc, closed) :: r.2)) <$> consume name entries'
  end.

(** The items a checklist keeps, each in the state of the entry it has
    consumed, and the entries no item has consumed. *)
Fixpoint settle (items : list CheckItem) (entries : list (string * bool))
  : list CheckItem * list (string * bool) :=
  match items with
  | [] => ([], entries)
  | item :: items' =>
      match consume (item_name item) entries with
      | Some (closed, entries') =>
          let '(kept, rest) := settle items' entries' in
          (set_state (state_of_checked closed) item :: kept, rest)
      | None => settle items' entries
      end
  end.

(** The items the board creates for the entries that are left. *)
Fixpoint created (fresh : nat → string) (k : nat) (entries : list (string * bool))
  : list CheckItem :=
  match entries with
  | [] => []
  | (desc, closed) :: entries' =>
      {| item_id := fresh k; item_name := desc; item_state := state_of_checked closed |}
      :: created fresh (S k) entries'
  end.

(** What an item says about its card: title, and complete for closed. *)
Definition entry_of (i : CheckItem) : string * bool :=
  (item_name i, bool_decide (item_state i = complete)).

(** The call updates or deletes one of the items [ids]. *)
Definition addresses (ids : list string) (c : call) : Prop :=
  match c with
  | cards_update_checkItem_idCheckItem i _ _
  | checklists_delete_checkItem_idCheckItem i _ => i ∈ ids
  | _ => False
  end.

(** The items of a checklist after a sequence of calls. *)
Definition remote_items_after (card checklist : string) (calls : list call)
    (items : list CheckItem) : list CheckItem :=
  foldl (λ items c, remote_items card checklist c items) items calls.

(** The label the checklist loop stops at: the first colorless label of
    the name of the card that has a list in the grouping. *)
Fixpoint project_label (projects : gmap string (list (string * bool))) (card : Card)
    (labels : list Label) : option (Label * list (string * bool)) :=
  match labels with
  | [] => None
  | a :: labels' =>
      if decide (label_name a = card_name card ∧ label_color a = None)
      then match projects !! label_id a with
           | Some entries => Some (a, entries)
           | None => project_label projects card labels'
           end
      else project_label projects card labels'
  end.

(** One card of the board after a sequence of calls. *)
Definition remote_card_after (calls : list call) (card : Card) : Card :=
  foldl (λ card c, remote_call c card) card calls.

(** The call is one of the three calls on check items. *)
Definition on_items (c : call) : Prop :=
  match c with
  | checklists_new_checkItem _ _ _ _
  | cards_update_checkItem_idCheckItem _ _ _
  | checklists_delete_checkItem_idCheckItem _ _ => True
  | _ => False
  end.

(** A step on a card keeps the identifier, the description, the label
    objects, the list and the checklists, and makes at most one call, an
    update of the card that sends no list. *)
Definition touches_only_state (card : Card) (r : Card * list call) : Prop :=
  card_id r.1 = card_id card
  ∧ card_desc r.1 = card_desc card
  ∧ card_labels r.1 = card_labels card
  ∧ card_idList r.1 = card_idList card
  ∧ card_checklists r.1 = card_checklists card
  ∧ Forall (λ c, ∃ u, c = cards_update (card_id card) u ∧ upd_idList u = None) r.2
  ∧ (length r.2 ≤ 1)%nat.

(** The dollars of a title. *)
Fixpoint count_dollars (s : string) : nat :=
  match s with
  | EmptyString => 0
  | String c s' => if is_dollar c then S (count_dollars s') else count_dollars s'
  end.

(** * Properties *)

(** ** Characters *)

Lemma is_dollar_spec c : is_dollar c = true ↔ c = "$"%char.
Proof. unfold is_dollar. apply Ascii.eqb_eq. Qed.

Lemma lead_dollar lo hi b :
  lead lo hi b = true → (36 <? lo)%N = true → is_dollar b = false.
Proof.
  intros Hb Hlo%N.ltb_lt. destruct (is_dollar b) eqn:E; [|done].
  apply is_dollar_spec in E. subst b. unfold lead in Hb. simpl in Hb.
  apply andb_prop in Hb as [Hb _]. apply N.leb_le in Hb. lia.
Qed.

Lemma lead_disjoint lo hi lo' hi' b :
  lead lo' hi' b = true → ((hi <=? lo') || (hi' <=? lo))%N = true →
  lead lo hi b = false.
Proof.
  unfold lead. intros [H1 H2]%andb_prop H.
  apply N.leb_le in H1. apply N.ltb_lt in H2. apply andb_false_iff.
  apply orb_prop in H as [H|H]; apply N.leb_le in H.
  - right. apply N.ltb_ge. lia.
  - left. apply N.leb_gt. lia.
Qed.

Lemma chars_ind (P : string → Prop) :
  P EmptyString →
  (∀ c s, is_char c → chars (c +:+ s) = c :: chars s → P s → P (c +:+ s)) →
  ∀ s, P s.
Proof.
  intros H0 Hstep s.
  assert (∀ n s, (String.length s ≤ n)%nat → P s) as Hn; [|by eapply Hn].
  clear s. induction n as [|n IH]; intros s Hlen.
  { destruct s; [done|simpl in Hlen; lia]. }
  destruct s as [|b1 s1]; [done|].
  assert (chars (String b1 s1) = String b1 EmptyString :: chars s1 → P (String b1 s1))
    as Hone.
  { intros E. apply (Hstep (String b1 EmptyString) s1); [done|done|].
    apply IH. simpl in Hlen. lia. }
  destruct s1 as [|b2 s2]; [by apply Hone|].
  destruct (lead 194 224 b1 && trail b2) eqn:E2.
  { apply (Hstep (String b1 (String b2 EmptyString)) s2); [done| |].
    - simpl. by rewrite E2.
    - apply IH. simpl in Hlen. lia. }
  destruct s2 as [|b3 s3]; [apply Hone; simpl; by rewrite E2|].
  destruct (lead 224 240 b1 && trail b2 && trail b3) eqn:E3.
  { apply (Hstep (String b1 (String b2 (String b3 EmptyString))) s3); [done| |].
    - simpl. by rewrite E2, E3.
    - apply IH. simpl in Hlen. lia. }
  destruct s3 as [|b4 s4]; [apply Hone; simpl; by rewrite E2, E3|].
  destruct (lead 240 245 b1 && trail b2 && trail b3 && trail b4) eqn:E4.
  { apply (Hstep (String b1 (String b2 (String b3 (String b4 EmptyString)))) s4);
      [done| |].
    - simpl. by rewrite E2, E3, E4.
    - apply IH. simpl in Hlen. lia. }
  apply Hone. simpl. by rewrite E2, E3, E4.
Qed.

Lemma join_chars s : join (chars s) = s.
Proof.
  induction s as [|c s Hc E IH] using chars_ind; [done|].
  rewrite E. simpl. by rewrite IH.
Qed.

Lemma has_dollar_app s1 s2 : has_dollar (s1 +:+ s2) = has_dollar s1 || has_dollar s2.
Proof.
  induction s1 as [|c s1 IH]; [done|].
  change (String c s1 +:+ s2) with (String c (s1 +:+ s2)). simpl.
  by rewrite IH, orb_assoc.
Qed.

Lemma is_char_dollar c : is_char c → has_dollar c = bool_decide (c = "$"%string).
Proof.
  destruct c as [|b1 [|b2 [|b3 [|b4 [|b5 c]]]]]; simpl; try done.
  - intros _. rewrite orb_false_r. destruct (is_dollar b1) eqn:E.
    + apply is_dollar_spec in E as ->. done.
    + rewrite bool_decide_eq_false_2; [done|]. intros [= ->]. done.
  - intros [H1 H2]%andb_prop. rewrite bool_decide_eq_false_2 by done.
    by rewrite (lead_dollar 194 224 b1), (lead_dollar 128 192 b2) by done.
  - intros [[H1 H2]%andb_prop H3]%andb_prop. rewrite bool_decide_eq_false_2 by done.
    by rewrite (lead_dollar 224 240 b1), (lead_dollar 128 192 b2),
      (lead_dollar 128 192 b3) by done.
  - intros [[[H1 H2]%andb_prop H3]%andb_prop H4]%andb_prop.
    rewrite bool_decide_eq_false_2 by done.
    by rewrite (lead_dollar 240 245 b1), (lead_dollar 128 192 b2),
      (lead_dollar 128 192 b3), (lead_dollar 128 192 b4) by done.
Qed.

Lemma chars_is_char s : Forall is_char (chars s).
Proof.
  induction s as [|c s Hc E IH] using chars_ind; [done|].
  rewrite E. by constructor.
Qed.

Lemma chars_byte b s :
  lead 0 194 b = true → chars (String b s) = String b EmptyString :: chars s.
Proof.
  intros Hb.
  pose proof (lead_disjoint 194 224 0 194 b Hb eq_refl) as H2.
  pose proof (lead_disjoint 224 240 0 194 b Hb eq_refl) as H3.
  pose proof (lead_disjoint 240 245 0 194 b Hb eq_refl) as H4.
  destruct s as [|b2 [|b3 [|b4 s]]]; simpl; by rewrite ?H2, ?H3, ?H4.
Qed.

Lemma lead_weaken lo hi lo' hi' b :
  lead lo hi b = true → ((lo' <=? lo) && (hi <=? hi'))%N = true → lead lo' hi' b = true.
Proof.
  unfold lead. intros [H1 H2]%andb_prop [H3 H4]%andb_prop.
  apply N.leb_le in H1, H3, H4. apply N.ltb_lt in H2. apply andb_true_iff.
  split; [apply N.leb_le|apply N.ltb_lt]; lia.
Qed.

Lemma chars_code_point c n s : code_point c = Some n → chars (c +:+ s) = c :: chars s.
Proof.
  destruct c as [|b1 [|b2 [|b3 [|b4 [|b5 c]]]]]; simpl; try done.
  - destruct (lead 0 128 b1) eqn:E; [|done]. intros _.
    apply chars_byte. by apply (lead_weaken 0 128).
  - by destruct (lead 194 224 b1 && trail b2) eqn:E.
  - destruct (lead 224 240 b1 && trail b2 && trail b3) eqn:E; [|done]. intros _.
    apply andb_prop in E as [[H1 _]%andb_prop _].
    by rewrite (lead_disjoint 194 224 224 240 b1 H1 eq_refl).
  - destruct (lead 240 245 b1 && trail b2 && trail b3 && trail b4) eqn:E; [|done].
    intros _. apply andb_prop in E as [[[H1 _]%andb_prop _]%andb_prop _].
    by rewrite (lead_disjoint 194 224 240 245 b1 H1 eq_refl),
      (lead_disjoint 224 240 240 245 b1 H1 eq_refl).
Qed.

Lemma append_assoc (s1 s2 s3 : string) : (s1 +:+ s2) +:+ s3 = s1 +:+ (s2 +:+ s3).
Proof.
  induction s1 as [|c s1 IH]; [done|].
  change (String c ((s1 +:+ s2) +:+ s3) = String c (s1 +:+ (s2 +:+ s3))). by rewrite IH.
Qed.

Lemma append_nil_r (s : string) : s +:+ EmptyString = s.
Proof.
  induction s as [|c s IH]; [done|].
  change (String c (s +:+ EmptyString) = String c s). by rewrite IH.
Qed.

Lemma length_append (s1 s2 : string) :
  String.length (s1 +:+ s2) = (String.length s1 + String.length s2)%nat.
Proof.
  induction s1 as [|c s1 IH]; [done|].
  change (S (String.length (s1 +:+ s2)) = S (String.length s1 + String.length s2)).
  by rewrite IH.
Qed.

Lemma count_dollars_append s1 s2 :
  count_dollars (s1 +:+ s2) = (count_dollars s1 + count_dollars s2)%nat.
Proof.
  induction s1 as [|c s1 IH]; [done|].
  change (String c s1 +:+ s2) with (String c (s1 +:+ s2)). simpl.
  destruct (is_dollar c); simpl; by rewrite IH.
Qed.

Lemma count_dollars_0 s : count_dollars s = 0%nat ↔ has_dollar s = false.
Proof.
  induction s as [|c s IH]; simpl; [done|].
  destruct (is_dollar c); simpl; [split; discriminate|done].
Qed.

Lemma code_point_is_char c n : code_point c = Some n → is_char c.
Proof.
  destruct c as [|b1 [|b2 [|b3 [|b4 [|b5 c]]]]]; simpl; try done.
  - by destruct (lead 194 224 b1 && trail b2).
  - by destruct (lead 224 240 b1 && trail b2 && trail b3).
  - by destruct (lead 240 245 b1 && trail b2 && trail b3 && trail b4).
Qed.

(** ** The pattern *)

Lemma is_digit_code_point c :
  is_digit c = true → ∃ n v, code_point c = Some n ∧ decimal n = Some v.
Proof.
  unfold is_digit. destruct (code_point c) as [n|]; simpl; [|done].
  destruct (decimal n) as [v|] eqn:E; [|done]. eauto.
Qed.

Lemma digit_not_dollar c : is_digit c = true → c ≠ "$"%string.
Proof. by intros Hd ->. Qed.

Lemma is_digit_is_char c : is_digit c = true → is_char c.
Proof. intros (n & v & Hn & _)%is_digit_code_point. by eapply code_point_is_char. Qed.

Lemma is_digit_has_dollar c : is_digit c = true → has_dollar c = false.
Proof.
  intros Hd. rewrite (is_char_dollar c) by by apply is_digit_is_char.
  apply bool_decide_eq_false_2. by apply digit_not_dollar.
Qed.

Lemma chars_digit c s : is_digit c = true → chars (c +:+ s) = c :: chars s.
Proof. intros (n & v & Hn & _)%is_digit_code_point. by eapply chars_code_point. Qed.

Lemma chars_join_digits cs s :
  forallb is_digit cs = true → chars (join cs +:+ s) = cs ++ chars s.
Proof.
  induction cs as [|c cs IH]; simpl; [done|].
  intros [Hc Hcs]%andb_prop. by rewrite append_assoc, chars_digit, IH.
Qed.

Lemma forallb_digits_of cs : forallb is_digit (digits_of cs) = true.
Proof.
  induction cs as [|c cs IH]; simpl; [done|].
  destruct (is_digit c) eqn:E; simpl; [|done]. by rewrite E.
Qed.

Lemma chars_digits_of cs : chars (join (digits_of cs)) = digits_of cs.
Proof.
  rewrite <-(append_nil_r (join _)), chars_join_digits by apply forallb_digits_of.
  apply app_nil_r.
Qed.

Lemma all_digits_digits_of cs : all_digits (join (digits_of cs)) = true.
Proof. unfold all_digits. rewrite chars_digits_of. apply forallb_digits_of. Qed.

Lemma digits_split cs : cs = digits_of cs ++ after_digits cs.
Proof.
  induction cs as [|c cs IH]; simpl; [done|].
  destruct (is_digit c); simpl; [|done]. by rewrite <-IH.
Qed.

Lemma after_digits_length cs : (length (after_digits cs) ≤ length cs)%nat.
Proof.
  induction cs as [|c cs IH]; simpl; [done|].
  destruct (is_digit c); simpl; lia.
Qed.

Lemma after_digits_Forall (P : string → Prop) cs : Forall P cs → Forall P (after_digits cs).
Proof.
  induction 1 as [|c cs Hc Hcs IH]; simpl; [done|].
  destruct (is_digit c); [done|by constructor].
Qed.

(** Induction along the scan of the pattern: a character that is not a
    dollar is passed over, a dollar takes its digits with it. *)
Lemma scan_ind (P : list string → Prop) :
  P [] →
  (∀ c cs, c ≠ "$"%string → P cs → P (c :: cs)) →
  (∀ cs, P (after_digits cs) → P ("$"%string :: cs)) →
  ∀ cs, P cs.
Proof.
  intros H0 Hc Hd cs.
  assert (∀ n cs, (length cs ≤ n)%nat → P cs) as Hn; [|by eapply Hn].
  clear cs. induction n as [|n IH]; intros [|c cs] Hlen; simpl in *; try done; try lia.
  destruct (decide (c = "$"%string)) as [->|Hne].
  - apply Hd. apply IH. pose proof (after_digits_length cs). lia.
  - apply Hc; [done|]. apply IH. lia.
Qed.

(** Every match is a dollar followed by a run of digits. *)
Lemma findall_from_shape cs :
  Forall (λ m, ∃ ds, m = String "$" ds ∧ all_digits ds = true) (findall_from cs).
Proof.
  induction cs as [| c cs Hc IH | cs IH] using scan_ind; simpl.
  - done.
  - by rewrite bool_decide_eq_false_2.
  - constructor; [|done]. eexists. split; [done|]. apply all_digits_digits_of.
Qed.

Lemma findall_shape s :
  Forall (λ m, ∃ ds, m = String "$" ds ∧ all_digits ds = true) (findall s).
Proof. apply findall_from_shape. Qed.

Lemma has_dollar_join cs :
  Forall is_char cs → has_dollar (join cs) = existsb (λ c, bool_decide (c = "$"%string)) cs.
Proof.
  induction 1 as [|c cs Hc Hcs IH]; simpl; [done|].
  by rewrite has_dollar_app, IH, is_char_dollar.
Qed.

Lemma has_dollar_chars s :
  has_dollar s = existsb (λ c, bool_decide (c = "$"%string)) (chars s).
Proof. rewrite <-(join_chars s) at 1. apply has_dollar_join, chars_is_char. Qed.

(** A title has a match exactly when it holds a dollar. *)
Lemma findall_nil s : findall s = [] ↔ has_dollar s = false.
Proof.
  rewrite has_dollar_chars. unfold findall.
  induction (chars s) as [|c cs IH]; simpl; [done|].
  case_bool_decide; simpl; [|done]. split; discriminate.
Qed.

(** No dollar is left in the stripped title. *)
Lemma sub_empty_no_dollar s : has_dollar (sub_empty s) = false.
Proof.
  unfold sub_empty. pose proof (chars_is_char s) as Hall.
  induction (chars s) as [| c cs Hc IH | cs IH] using scan_ind; simpl.
  - done.
  - rewrite bool_decide_eq_false_2 by done.
    apply Forall_cons in Hall as [H1 H2].
    rewrite has_dollar_app, IH, is_char_dollar by done.
    by rewrite bool_decide_eq_false_2.
  - apply IH, after_digits_Forall. by apply Forall_cons in Hall as [_ ?].
Qed.

(** A title without dollar is left as it is. *)
Lemma sub_empty_id s : has_dollar s = false → sub_empty s = s.
Proof.
  rewrite has_dollar_chars. unfold sub_empty. intros H.
  rewrite <-(join_chars s) at 2.
  induction (chars s) as [|c cs IH]; simpl in *; [done|].
  apply orb_false_elim in H as [-> H]. by rewrite IH.
Qed.

Lemma length_join_split cs :
  String.length (join cs)
  = (String.length (join (digits_of cs)) + String.length (join (after_digits cs)))%nat.
Proof.
  induction cs as [|c cs IH]; simpl; [done|].
  destruct (is_digit c); simpl; [|done]. rewrite !length_append, IH. lia.
Qed.

(** The bytes of the title are those of the stripped title and of the
    matches. *)
Lemma sub_empty_length s :
  String.length s
  = (String.length (sub_empty s) + sum_list (String.length <$> findall s))%nat.
Proof.
  unfold sub_empty, findall. rewrite <-(join_chars s) at 1.
  induction (chars s) as [| c cs Hc IH | cs IH] using scan_ind; simpl.
  - done.
  - rewrite bool_decide_eq_false_2 by done. rewrite !length_append, IH. lia.
  - rewrite length_append, length_join_split, IH. simpl.
    change (list_fmap string nat String.length) with (fmap (M:=list) String.length).
    rewrite length_append. simpl. lia.
Qed.

Lemma count_dollars_after_digits cs :
  count_dollars (join (after_digits cs)) = count_dollars (join cs).
Proof.
  induction cs as [|c cs IH]; simpl; [done|].
  destruct (is_digit c) eqn:E; simpl; [|done].
  rewrite count_dollars_append, IH.
  by rewrite (proj2 (count_dollars_0 c) (is_digit_has_dollar c E)).
Qed.

Lemma length_findall s : length (findall s) = count_dollars s.
Proof.
  unfold findall. rewrite <-(join_chars s) at 2. pose proof (chars_is_char s) as Hall.
  induction (chars s) as [| c cs Hc IH | cs IH] using scan_ind; simpl.
  - done.
  - rewrite bool_decide_eq_false_2 by done. apply Forall_cons in Hall as [H1 H2].
    rewrite count_dollars_append, IH by done.
    assert (count_dollars c = 0%nat) as ->; [|done].
    apply count_dollars_0. rewrite is_char_dollar by done. by apply bool_decide_eq_false_2.
  - apply Forall_cons in Hall as [_ H2].
    rewrite IH by by apply after_digits_Forall.
    by rewrite count_dollars_after_digits.
Qed.

Lemma last_findall s :
  findall s ≠ [] →
  ∃ ds, last (findall s) = Some (String "$" ds) ∧ all_digits ds = true.
Proof.
  intros Hne. pose proof (findall_shape s) as Hall.
  destruct (last (findall s)) as [m|] eqn:Hlast.
  - apply last_Some_elem_of in Hlast as Hin.
    rewrite Forall_forall in Hall. destruct (Hall m Hin) as (ds & -> & Hds). eauto.
  - by apply last_None in Hlast.
Qed.

Lemma all_digits_head b ds : all_digits (String b ds) = true → is_dollar b = false.
Proof.
  unfold all_digits. intros Hall.
  pose proof (join_chars (String b ds)) as Hj.
  destruct (chars (String b ds)) as [|c cs]; [done|].
  simpl in Hall. apply andb_prop in Hall as [Hc _].
  pose proof (is_digit_has_dollar c Hc) as Hno.
  destruct c as [|b' c]; [done|].
  simpl in Hj. injection Hj as -> _. simpl in Hno. by apply orb_false_elim in Hno as [? _].
Qed.

Lemma lstrip_dollar_digits ds : all_digits ds = true → lstrip_dollar ds = ds.
Proof.
  destruct ds as [|b ds]; [done|]. intros Hb%all_digits_head. simpl. by rewrite Hb.
Qed.

(** ** The day count *)

Lemma decimal_lt n v : decimal n = Some v → (v < 10)%N.
Proof.
  unfold decimal. destruct (find _ _) as [r|]; [|done]. intros [= <-].
  by apply N.mod_lt.
Qed.

Lemma find_range_None n (l : list (N * N)) :
  Forall (λ r, (n < r.1)%N) l →
  List.find (λ r, (r.1 <=? n)%N && (n <=? r.2)%N) l = None.
Proof.
  induction 1 as [|r l Hr Hl IH]; simpl; [done|].
  by rewrite (proj2 (N.leb_gt _ _) Hr).
Qed.

Lemma decimal_ascii n v : (n < 127)%N → decimal n = Some v → n = (48 + v)%N.
Proof.
  intros Hn. unfold decimal.
  change decimal_ranges with ((48, 57)%N :: tail decimal_ranges).
  cbn [List.find fst snd].
  assert (List.find (λ r, (r.1 <=? n)%N && (n <=? r.2)%N) (tail decimal_ranges) = None)
    as Hrest.
  { apply find_range_None.
    assert (Forall (λ r, (127 <= r.1)%N) (tail decimal_ranges)) as Hall.
    { unfold decimal_ranges. cbn [tail]. repeat constructor; by vm_compute. }
    eapply Forall_impl; [exact Hall|]. simpl. intros r Hr. lia. }
  rewrite Hrest.
  destruct (N.leb_spec 48 n) as [H1|H1], (N.leb_spec n 57) as [H2|H2]; cbn [andb];
    try done.
  simpl. intros [= <-]. rewrite N.mod_small; lia.
Qed.

Lemma decimal_not_space n v : decimal n = Some v → isspace n = false.
Proof.
  intros Hd. apply bool_decide_eq_false_2. intros Hin.
  assert (Forall (λ s, decimal s = None) space_points) as Hall.
  { repeat constructor. }
  rewrite Forall_forall in Hall. by rewrite (Hall n Hin) in Hd.
Qed.

Lemma digit_value_range c : 0 <= digit_value c <= 9.
Proof.
  unfold digit_value. destruct (code_point c ≫= decimal) as [v|] eqn:E; [|lia].
  destruct (code_point c) as [n|]; [|done]. simpl in E. apply decimal_lt in E. lia.
Qed.

Lemma to_ascii_digits cs :
  forallb is_digit cs = true → to_ascii cs = digit_point <$> cs.
Proof.
  induction cs as [|c cs IH]; [done|]. cbn [forallb]. intros [Hc Hcs]%andb_prop.
  rewrite fmap_cons, <-IH by done. clear IH. cbn [to_ascii].
  apply is_digit_code_point in Hc as (n & v & Hn & Hv).
  unfold digit_point, digit_value. rewrite Hn. simpl. rewrite Hv, N2Z.id.
  destruct (N.ltb_spec n 127) as [Hlt|Hge].
  - by rewrite <-(decimal_ascii n v).
  - by rewrite (decimal_not_space n v).
Qed.

Lemma digit_point_digit c :
  ((48 <=? digit_point c) && (digit_point c <=? 57))%N = true
  ∧ Z.of_N (digit_point c) - 48 = digit_value c.
Proof.
  pose proof (digit_value_range c). unfold digit_point. split; [|lia].
  apply andb_true_iff. split; apply N.leb_le; lia.
Qed.

Lemma scan_digits_digits seen acc cs :
  scan_digits false seen acc (digit_point <$> cs)
  = Some (value_from acc cs, seen || negb (bool_decide (cs = [])), []).
Proof.
  revert seen acc. induction cs as [|c cs IH]; intros seen acc.
  { simpl. by rewrite orb_false_r. }
  rewrite fmap_cons. cbn [scan_digits value_from].
  destruct (digit_point_digit c) as [-> ->]. rewrite IH.
  by rewrite orb_true_r.
Qed.

Lemma PyLong_FromString_digits c cs :
  PyLong_FromString (digit_point <$> c :: cs) = Some (value_from 0 (c :: cs)).
Proof.
  unfold PyLong_FromString. rewrite fmap_cons. cbn [skip_spaces].
  pose proof (digit_value_range c) as Hr.
  assert (Py_ISSPACE (digit_point c) = false) as ->.
  { unfold Py_ISSPACE, digit_point. apply orb_false_iff. split.
    - apply andb_false_iff. right. apply N.leb_gt. lia.
    - apply N.eqb_neq. lia. }
  assert ((digit_point c =? 43)%N = false) as -> by (apply N.eqb_neq; unfold digit_point; lia).
  assert ((digit_point c =? 45)%N = false) as -> by (apply N.eqb_neq; unfold digit_point; lia).
  assert ((digit_point c =? 95)%N = false) as -> by (apply N.eqb_neq; unfold digit_point; lia).
  rewrite <-fmap_cons, scan_digits_digits. simpl. f_equal. lia.
Qed.

(** On a run of decimal digits [int] gives the decimal value. *)
Lemma int_digits ds :
  all_digits ds = true → ds ≠ EmptyString → int ds = inl (digits_value ds).
Proof.
  unfold all_digits, int, digits_value. intros Hall Hne.
  rewrite to_ascii_digits by done.
  destruct (chars ds) as [|c cs] eqn:E.
  { by rewrite <-(join_chars ds), E in Hne. }
  by rewrite PyLong_FromString_digits.
Qed.

Lemma value_from_nonneg acc cs : 0 <= acc → 0 <= value_from acc cs.
Proof.
  revert acc. induction cs as [|c cs IH]; simpl; intros acc Hacc; [done|].
  apply IH. pose proof (digit_value_range c). lia.
Qed.

Lemma value_from_app acc cs1 cs2 :
  value_from acc (cs1 ++ cs2) = value_from (value_from acc cs1) cs2.
Proof. revert acc. induction cs1 as [|c cs1 IH]; intros acc; simpl; [done|apply IH]. Qed.

Lemma value_from_shift acc cs :
  value_from acc cs = acc * 10 ^ Z.of_nat (length cs) + value_from 0 cs.
Proof.
  revert acc. induction cs as [|c cs IH]; intros acc; simpl length; simpl value_from.
  { change (Z.of_nat 0) with 0. lia. }
  rewrite (IH (10 * acc + digit_value c)), (IH (10 * 0 + digit_value c)).
  rewrite Nat2Z.inj_succ, Z.pow_succ_r by lia. lia.
Qed.

Lemma all_digits_append s1 s2 :
  all_digits s1 = true → all_digits s2 = true →
  chars (s1 +:+ s2) = chars s1 ++ chars s2 ∧ all_digits (s1 +:+ s2) = true.
Proof.
  unfold all_digits. intros H1 H2.
  assert (chars (s1 +:+ s2) = chars s1 ++ chars s2) as E.
  { rewrite <-(join_chars s1) at 1. by apply chars_join_digits. }
  split; [done|]. rewrite E, forallb_app. by rewrite H1, H2.
Qed.


Lemma directive_days_spec name :
  findall name ≠ [] →
  ∃ ds, last (findall name) = Some (String "$" ds) ∧ all_digits ds = true ∧
        directive_days name
        = Some (if bool_decide (ds = EmptyString) then 1 else digits_value ds).
Proof.
  intros (ds & Hlast & Hds)%last_findall. exists ds. split_and!; [done..|].
  unfold directive_days. rewrite Hlast. simpl. rewrite (lstrip_dollar_digits ds Hds).
  case_bool_decide; [done|]. by rewrite int_digits.
Qed.

Lemma directive_days_None name : directive_days name = None ↔ has_dollar name = false.
Proof.
  rewrite <-findall_nil. split.
  - intros Hn. destruct (decide (findall name = [])) as [|Hne]; [done|].
    destruct (directive_days_spec name Hne) as (ds & _ & _ & Hd). congruence.
  - intros E. unfold directive_days. by rewrite E.
Qed.

Lemma directive_days_nonneg name d : directive_days name = Some d → 0 <= d.
Proof.
  intros Hd. destruct (decide (findall name = [])) as [E|Hne].
  { unfold directive_days in Hd. by rewrite E in Hd. }
  destruct (directive_days_spec name Hne) as (ds & _ & _ & Hs).
  rewrite Hs in Hd. injection Hd as <-. case_bool_decide; [done|].
  by apply value_from_nonneg.
Qed.

(** ** The dollar handler *)

Lemma handle_dollar_none cfg now card :
  has_dollar (card_name card) = false → handle_dollar_snoozing cfg now card = inl (card, []).
Proof.
  intros Hd%findall_nil. unfold handle_dollar_snoozing. by rewrite Hd.
Qed.

(** With a day count the handler comes to the addition of line 44. *)
Lemma handle_dollar_days cfg now card days :
  directive_days (card_name card) = Some days →
  handle_dollar_snoozing cfg now card
  = match timedelta_days days ≫= datetime_add now with
    | None => inr OverflowError
    | Some delay_time =>
        inl (set_idLabels (card_idLabels card ++ [LABEL_SNOOZE cfg])
               (set_due (Some delay_time) (set_name (sub_empty (card_name card)) card)),
             [cards_update (card_id card)
                (dollar_update (sub_empty (card_name card)) delay_time
                   (card_idLabels card ++ [LABEL_SNOOZE cfg]))])
    end.
Proof.
  unfold handle_dollar_snoozing, directive_days.
  destruct (last (findall (card_name card))) as [m|]; [|done].
  cbv zeta. case_bool_decide.
  - by intros [= ->].
  - destruct (int (lstrip_dollar m)) as [d|e]; [|done]. by intros [= ->].
Qed.

Lemma handle_dollar_ok cfg now card days :
  directive_days (card_name card) = Some days →
  0 <= now → now + days * day_us <= datetime_max →
  handle_dollar_snoozing cfg now card
  = inl (snoozed_for cfg now days (sub_empty (card_name card)) card).
Proof.
  intros Hdays Hnow Hmax. pose proof (directive_days_nonneg _ _ Hdays) as Hpos.
  rewrite (handle_dollar_days cfg now card days Hdays).
  unfold snoozed_for, timedelta_days, datetime_add, datetime_max, day_us in *.
  rewrite bool_decide_eq_true_2 by lia. simpl.
  by rewrite bool_decide_eq_true_2 by lia.
Qed.

Lemma handle_dollar_overflow cfg now card days :
  directive_days (card_name card) = Some days →
  0 <= now → datetime_max < now + days * day_us →
  handle_dollar_snoozing cfg now card = inr OverflowError.
Proof.
  intros Hdays Hnow Hmax.
  rewrite (handle_dollar_days cfg now card days Hdays).
  unfold timedelta_days, datetime_add. case_bool_decide; [|reflexivity].
  simpl. by rewrite bool_decide_eq_false_2 by lia.
Qed.

(** C3, as amended: a title with a dollar directive has a last match, a
    dollar and a run of decimal digits; [int] reads the digits as the day
    count, their decimal value, and the count is one day when there are
    none; as long as that many days from now is a date the calendar has
    (up to the year 9999), the handler strips every directive from the
    title, sets due to now plus the days, adds the snooze label and sends
    the three fields.  "Buy milk $3" becomes "Buy milk " with three days,
    "Call back $" takes one day, "$1 foo $5" takes five days and loses
    both directives; the digits of any script count, "Buy bread $٣" takes
    three days. *)
Theorem dollar_directive (cfg : Config) (now : datetime) (card : Card) :
  has_dollar (card_name card) = true →
  0 <= now <= datetime_max →
  (∃ ds days,
      last (findall (card_name card)) = Some (String "$" ds)
      ∧ all_digits ds = true
      ∧ (if bool_decide (ds = EmptyString) then inl 1 else int ds) = inl days
      ∧ days = (if bool_decide (ds = EmptyString) then 1 else digits_value ds)
      ∧ has_dollar (sub_empty (card_name card)) = false
      ∧ (now + days * day_us <= datetime_max →
         handle_dollar_snoozing cfg now card
         = inl (snoozed_for cfg now days (sub_empty (card_name card)) card)))
  ∧ (card_name card = "Buy milk $3" → now + 3 * day_us <= datetime_max →
     handle_dollar_snoozing cfg now card = inl (snoozed_for cfg now 3 "Buy milk " card))
  ∧ (card_name card = "Call back $" → now + 1 * day_us <= datetime_max →
     handle_dollar_snoozing cfg now card = inl (snoozed_for cfg now 1 "Call back " card))
  ∧ (card_name card = "$1 foo $5" → now + 5 * day_us <= datetime_max →
     handle_dollar_snoozing cfg now card = inl (snoozed_for cfg now 5 " foo " card))
  ∧ (card_name card = "Buy bread $٣" → now + 3 * day_us <= datetime_max →
     handle_dollar_snoozing cfg now card = inl (snoozed_for cfg now 3 "Buy bread " card)).
Proof.
  intros Hd [Hnow _]. split_and!.
  - destruct (directive_days_spec (card_name card)) as (ds & Hlast & Hds & Hdays).
    { intros E%findall_nil. congruence. }
    exists ds, (if bool_decide (ds = EmptyString) then 1 else digits_value ds).
    split_and!; [done..| |done|apply sub_empty_no_dollar|].
    + case_bool_decide; [done|]. by apply int_digits.
    + intros Hmax. by apply handle_dollar_ok.
  - intros Hname Hmax. rewrite (handle_dollar_ok cfg now card 3); rewrite ?Hname; done.
  - intros Hname Hmax. rewrite (handle_dollar_ok cfg now card 1); rewrite ?Hname; done.
  - intros Hname Hmax. rewrite (handle_dollar_ok cfg now card 5); rewrite ?Hname; done.
  - intros Hname Hmax. rewrite (handle_dollar_ok cfg now card 3); rewrite ?Hname; done.
Qed.

Lemma dollar_directive_witness :
  handle_dollar_snoozing Samples.config Samples.new_year Samples.buy_milk
  = inl (snoozed_for Samples.config Samples.new_year 3 "Buy milk " Samples.buy_milk).
Proof.
  refine (proj1 (proj2 (dollar_directive Samples.config Samples.new_year
                          Samples.buy_milk _ _)) _ _).
  - reflexivity.
  - by vm_compute.
  - reflexivity.
  - by vm_compute.
Defined.

(** C3, as stated, fails: "Pay rent $9999999" asks for a date far beyond
    the year 9999; the addition raises [OverflowError], no field of the
    card is set and nothing is sent. *)
Lemma dollar_directive_overflows :
  has_dollar (card_name Samples.pay_rent) = true
  ∧ directive_days (card_name Samples.pay_rent) = Some 9999999
  ∧ handle_dollar_snoozing Samples.config Samples.new_year Samples.pay_rent
    = inr OverflowError.
Proof. by vm_compute. Qed.

(** C10, as amended: on a card that already carries the snooze label, and
    as long as the day count of the title leads to a date the calendar
    has, the handler appends the label once more: the list it writes
    back, and keeps on the card, holds the label one more time than
    before, at least twice, and is not free of duplicates. *)
Theorem dollar_appends_snooze_again (cfg : Config) (now : datetime) (card : Card)
    (days : Z) :
  LABEL_SNOOZE cfg ∈ card_idLabels card →
  directive_days (card_name card) = Some days →
  0 <= now → now + days * day_us <= datetime_max →
  ∃ card' u,
    handle_dollar_snoozing cfg now card = inl (card', [cards_update (card_id card) u])
    ∧ upd_idLabels u = Some (card_idLabels card ++ [LABEL_SNOOZE cfg])
    ∧ card_idLabels card' = card_idLabels card ++ [LABEL_SNOOZE cfg]
    ∧ length (filter (λ l, l = LABEL_SNOOZE cfg) (card_idLabels card'))
      = S (length (filter (λ l, l = LABEL_SNOOZE cfg) (card_idLabels card)))
    ∧ (2 ≤ length (filter (λ l, l = LABEL_SNOOZE cfg) (card_idLabels card')))%nat
    ∧ ¬ NoDup (card_idLabels card').
Proof.
  intros Hin Hdays Hnow Hmax.
  eexists _, _. split; [by apply handle_dollar_ok|]. simpl.
  assert (length (filter (λ l, l = LABEL_SNOOZE cfg)
                    (card_idLabels card ++ [LABEL_SNOOZE cfg]))
          = S (length (filter (λ l, l = LABEL_SNOOZE cfg) (card_idLabels card)))) as Hlen.
  { rewrite filter_app, length_app, filter_cons_True by done. simpl. lia. }
  split_and!; [done..| |].
  - rewrite Hlen.
    assert (LABEL_SNOOZE cfg ∈ filter (λ l, l = LABEL_SNOOZE cfg) (card_idLabels card))
      as Hf by (by apply list_elem_of_filter).
    destruct (filter _ (card_idLabels card)); [by apply elem_of_nil in Hf|simpl; lia].
  - intros [_ [Hno _]]%NoDup_app. apply (Hno _ Hin). by apply list_elem_of_singleton.
Qed.

Lemma dollar_appends_snooze_again_witness :
  ∃ card' u,
    handle_dollar_snoozing Samples.config Samples.new_year Samples.call_back
    = inl (card', [cards_update "c3" u])
    ∧ upd_idLabels u = Some ["snooze"; "snooze"].
Proof.
  destruct (dollar_appends_snooze_again Samples.config Samples.new_year
              Samples.call_back 1) as (card' & u & H & Hu & _).
  - by apply list_elem_of_singleton.
  - reflexivity.
  - by vm_compute.
  - by vm_compute.
  - exists card', u. split; [exact H|exact Hu].
Defined.

(** C10, as stated, fails: "Call back $9999999" on a card that carries
    the snooze label asks for a date beyond the year 9999; the handler
    raises [OverflowError] before line 46, no list of labels is written
    back and the card keeps the label once. *)
Lemma dollar_appends_snooze_overflows :
  LABEL_SNOOZE Samples.config ∈ card_idLabels Samples.far_off
  ∧ has_dollar (card_name Samples.far_off) = true
  ∧ handle_dollar_snoozing Samples.config Samples.new_year Samples.far_off
    = inr OverflowError
  ∧ card_idLabels Samples.far_off = ["snooze"].
Proof. split; [by apply list_elem_of_singleton|by vm_compute]. Qed.

(** ** Snooze and wake *)

(** C2: on a card that carries the snooze label and has a due date, the
    snooze step archives the card when it is open and now is at most due;
    the wake step, when now is at least due, reopens the card and clears
    due (the update sends no labels and the card keeps the snooze label);
    with due behind now the snooze step does nothing and the wake step
    that follows reopens the card. *)
Theorem snooze_and_wake (cfg : Config) (card : Card) (due : datetime) :
  LABEL_SNOOZE cfg ∈ card_idLabels card →
  card_due card = Some due →
  (∀ now, card_closed card = false → now <= due →
     snooze_card cfg now card
     = (set_closed true card,
        [cards_update (card_id card)
           {| upd_name := None; upd_desc := None; upd_closed := Some true;
              upd_due := None; upd_idLabels := None; upd_idList := None |}]))
  ∧ (∀ now, due <= now →
       wake_card cfg now card
       = (set_due None (set_closed false card),
          [cards_update (card_id card)
             {| upd_name := None; upd_desc := None; upd_closed := Some false;
                upd_due := Some None; upd_idLabels := None; upd_idList := None |}])
       ∧ card_closed (wake_card cfg now card).1 = false
       ∧ card_due (wake_card cfg now card).1 = None
       ∧ LABEL_SNOOZE cfg ∈ card_idLabels (wake_card cfg now card).1)
  ∧ (∀ now now', due < now → now <= now' →
       snooze_card cfg now card = (card, [])
       ∧ wake_card cfg now' (snooze_card cfg now card).1
         = (set_due None (set_closed false card),
            [cards_update (card_id card)
               {| upd_name := None; upd_desc := None; upd_closed := Some false;
                  upd_due := Some None; upd_idLabels := None; upd_idList := None |}])).
Proof.
  intros Hlabel Hdue.
  assert (carries (LABEL_SNOOZE cfg) card = true) as Hc
    by (by apply bool_decide_eq_true_2).
  assert (∀ now, due <= now →
            wake_card cfg now card
            = (set_due None (set_closed false card),
               [cards_update (card_id card)
                  {| upd_name := None; upd_desc := None; upd_closed := Some false;
                     upd_due := Some None; upd_idLabels := None;
                     upd_idList := None |}])) as Hwake.
  { intros now Hnow. unfold wake_card. rewrite Hdue, Hc. simpl.
    by rewrite bool_decide_eq_false_2 by lia. }
  assert (∀ now, due < now → snooze_card cfg now card = (card, [])) as Hsnooze.
  { intros now Hnow. unfold snooze_card. rewrite Hdue, Hc. simpl.
    destruct (card_closed card); [done|]. by rewrite bool_decide_eq_true_2 by lia. }
  split_and!.
  - intros now Hopen Hnow. unfold snooze_card. rewrite Hdue, Hc, Hopen. simpl.
    by rewrite bool_decide_eq_false_2 by lia.
  - intros now Hnow. by rewrite Hwake.
  - intros now now' Hnow Hnow'. rewrite Hsnooze by done. split; [done|].
    apply Hwake. simpl. lia.
Qed.

Lemma snooze_and_wake_witness :
  snooze_card Samples.config Samples.new_year Samples.napping
  = (set_closed true Samples.napping,
     [cards_update "c4"
        {| upd_name := None; upd_desc := None; upd_closed := Some true;
           upd_due := None; upd_idLabels := None; upd_idList := None |}]).
Proof.
  refine (proj1 (snooze_and_wake Samples.config Samples.napping
                   (Samples.new_year + Samples.hour) _ _) Samples.new_year _ _).
  - by apply list_elem_of_singleton.
  - reflexivity.
  - reflexivity.
  - by vm_compute.
Defined.

(** ** Integrity repair *)

Lemma integrity_check_broken cfg card :
  card_closed card = true → LABEL_SNOOZE cfg ∈ card_idLabels card → card_due card = None →
  integrity_check cfg card = (false, Some integrity_reason).
Proof.
  intros Hclosed Hlabel Hdue. unfold integrity_check, carries.
  by rewrite Hclosed, Hdue, bool_decide_eq_true_2.
Qed.

Lemma integrity_check_sound cfg card :
  (integrity_check cfg card).1 = false
  ↔ card_closed card = true ∧ LABEL_SNOOZE cfg ∈ card_idLabels card ∧ card_due card = None.
Proof.
  unfold integrity_check, carries. split.
  - destruct (card_closed card); [|done]. simpl.
    repeat case_bool_decide; simpl; try done.
  - intros (-> & Hl & ->). by rewrite bool_decide_eq_true_2.
Qed.

(** C5, as amended: for a card that is closed, carries the snooze label
    and has no due date, the body of the loop makes one call and nothing
    else: the update that clears due, reopens the card, puts "[RESTORED] "
    in front of the title, puts the explanatory note in front of the
    description and adds the important label.  The dollar, snooze and
    wake steps are skipped, whatever the title and the clock: the card
    dictionary is left as it was read. *)
Theorem integrity_repair (cfg : Config) (now : utc_readings) (card : Card) :
  card_closed card = true →
  LABEL_SNOOZE cfg ∈ card_idLabels card →
  card_due card = None →
  process_card cfg now card
  = inl (card,
         [cards_update (card_id card)
            {| upd_name := Some ("[RESTORED] " +:+ card_name card);
               upd_desc :=
                 Some ("**This card was restored**" +:+ nl
                       +:+ "Card does have delay label without any date set"
                       +:+ nl +:+ nl +:+ card_desc card);
               upd_closed := Some false;
               upd_due := Some None;
               upd_idLabels := Some (card_idLabels card ++ [LABEL_IMPORTANT cfg]);
               upd_idList := None |}]).
Proof.
  intros Hclosed Hlabel Hdue. unfold process_card.
  by rewrite integrity_check_broken.
Qed.

Lemma integrity_repair_witness :
  process_card Samples.config (Samples.readings Samples.new_year) Samples.broken
  = inl (Samples.broken,
         [cards_update "c5"
            {| upd_name := Some "[RESTORED] Order seeds";
               upd_desc :=
                 Some ("**This card was restored**" +:+ nl
                       +:+ "Card does have delay label without any date set"
                       +:+ nl +:+ nl +:+ "notes");
               upd_closed := Some false;
               upd_due := Some None;
               upd_idLabels := Some ["snooze"; "important"];
               upd_idList := None |}]).
Proof.
  refine (integrity_repair Samples.config _ Samples.broken _ _ _).
  - reflexivity.
  - by apply list_elem_of_singleton.
  - reflexivity.
Defined.

(** C5, as stated, fails: the description sent for the broken sample card
    starts with the note, not with the old description "notes"; it is not
    the old description with something appended. *)
Lemma integrity_repair_note_in_front :
  ∃ u, process_card Samples.config (Samples.readings Samples.new_year) Samples.broken
       = inl (Samples.broken, [cards_update "c5" u])
       ∧ ∀ note, upd_desc u ≠ Some (card_desc Samples.broken +:+ note).
Proof.
  eexists. split; [by vm_compute|]. intros note H. vm_compute in H. discriminate H.
Qed.

(** ** References into [data] *)

Lemma positions_spec p i data j :
  j ∈ positions p i data
  ↔ (i ≤ j)%nat ∧ ∃ c, data !! (j - i)%nat = Some c ∧ p c = true.
Proof.
  revert i. induction data as [|c data IH]; intros i; simpl.
  - split; [by intros ?%elem_of_nil|]. by intros (_ & ? & ? & _).
  - assert (j ∈ positions p (S i) data
            ↔ (i < j)%nat ∧ ∃ c', (c :: data) !! (j - i)%nat = Some c' ∧ p c' = true) as IH'.
    { rewrite IH. split.
      - intros (Hle & c' & Hc' & Hp). split; [lia|]. exists c'. split; [|done].
        by replace (j - i)%nat with (S (j - S i)) by lia.
      - intros (Hlt & c' & Hc' & Hp). split; [lia|]. exists c'. split; [|done].
        by replace (j - i)%nat with (S (j - S i)) in Hc' by lia. }
    destruct (p c) eqn:Hpc.
    + rewrite elem_of_cons, IH'. split.
      * intros [->|(Hlt & H)]; [|split; [lia|done]].
        split; [done|]. exists c. by rewrite Nat.sub_diag.
      * intros (Hle & c' & Hc' & Hp).
        destruct (decide (j = i)) as [->|Hne]; [by left|]. right. split; [lia|eauto].
    + rewrite IH'. split.
      * intros (Hlt & H). split; [lia|done].
      * intros (Hle & c' & Hc' & Hp). split; [|eauto].
        destruct (decide (j = i)) as [->|Hne]; [|lia].
        rewrite Nat.sub_diag in Hc'. simpl in Hc'. congruence.
Qed.

Lemma positions_NoDup p i data : NoDup (positions p i data).
Proof.
  revert i. induction data as [|c data IH]; intros i; simpl; [constructor|].
  destruct (p c); [|done]. constructor; [|done].
  rewrite positions_spec. lia.
Qed.

(** The working set refers to the cards that are open or carry a
    progress label, once each. *)
Lemma working_set_spec cfg data i :
  i ∈ working_set cfg data ↔ ∃ c, data !! i = Some c ∧ in_working_set cfg c = true.
Proof.
  unfold working_set. rewrite positions_spec, Nat.sub_0_r. split; [by intros [_ ?]|].
  intros ?. split; [lia|done].
Qed.

Lemma for_cards_lookup body cards data j :
  NoDup cards →
  (for_cards body cards data).1 !! j
  = if decide (j ∈ cards) then (λ c, (body c).1) <$> data !! j else data !! j.
Proof.
  intros Hnd. revert data. induction Hnd as [|i cards Hi Hnd IH]; intros data; simpl.
  { done. }
  destruct (data !! i) as [card|] eqn:Hcard.
  - destruct (body card) as [card' calls] eqn:Hbody.
    specialize (IH (<[i := card']> data)).
    destruct (for_cards body cards (<[i := card']> data)) as [data' calls'].
    simpl in *. rewrite IH.
    destruct (decide (j = i)) as [->|Hne].
    + rewrite decide_False by done. rewrite decide_True by (by left).
      rewrite list_lookup_insert_eq by (by eapply lookup_lt_Some).
      by rewrite Hcard; simpl; rewrite Hbody.
    + rewrite list_lookup_insert_ne by done.
      destruct (decide (j ∈ cards)).
      * by rewrite decide_True by (by right).
      * rewrite decide_False; [done|]. by intros [?|?]%elem_of_cons.
  - rewrite IH. destruct (decide (j = i)) as [->|Hne].
    + rewrite decide_False by done. rewrite Hcard. by destruct (decide (i ∈ i :: cards)).
    + destruct (decide (j ∈ cards)).
      * by rewrite decide_True by (by right).
      * rewrite decide_False; [done|]. by intros [?|?]%elem_of_cons.
Qed.

Lemma flat_map_agree {A B} (f g : A → list B) (l : list A) :
  (∀ a, a ∈ l → f a = g a) → flat_map f l = flat_map g l.
Proof.
  induction l as [|a l IH]; simpl; intros H; [done|].
  rewrite (H a) by left. rewrite IH; [done|]. intros b Hb. apply H. by right.
Qed.

Lemma for_cards_calls body cards data :
  NoDup cards →
  (for_cards body cards data).2
  = flat_map (λ i, from_option (λ c, (body c).2) [] (data !! i)) cards.
Proof.
  intros Hnd. revert data. induction Hnd as [|i cards Hi Hnd IH]; intros data; simpl; [done|].
  assert (∀ card', flat_map (λ i0, from_option (λ c, (body c).2) [] (<[i:=card']> data !! i0)) cards
                   = flat_map (λ i0, from_option (λ c, (body c).2) [] (data !! i0)) cards) as Hsame.
  { intros card'. apply flat_map_agree. intros a Ha.
    rewrite list_lookup_insert_ne; [done|]. by intros ->. }
  destruct (data !! i) as [card|] eqn:Hcard; simpl.
  - destruct (body card) as [card' calls] eqn:Hbody.
    specialize (IH (<[i := card']> data)).
    destruct (for_cards body cards (<[i := card']> data)) as [data' calls'].
    simpl in *. by rewrite IH, Hsame.
  - by rewrite IH.
Qed.

(** ** Tomorrow scheduling *)

(** C8, as amended: the pass runs exactly when the local time lies in
    01:00 to 02:00, both ends included.  Inside the window every card of
    the working set (open, or with a progress label, when the board was
    read) that carries the tomorrow label is moved to the tomorrow list
    and loses the label, on the board and in memory; the cards outside
    the working set are not touched.  Outside the window nothing is
    touched. *)
Theorem tomorrow_scheduling_window (cfg : Config) (current_time : Z)
    (snapshot data : list Card) :
  (in_nightly_window current_time = true
   ↔ 1 * 3600 * 1000000 <= current_time <= 2 * 3600 * 1000000)
  ∧ (in_nightly_window current_time = false →
     tomorrow_scheduling cfg current_time (working_set cfg snapshot) data = (data, []))
  ∧ (in_nightly_window current_time = true →
     ∀ i read card,
       snapshot !! i = Some read → data !! i = Some card →
       let result := tomorrow_scheduling cfg current_time (working_set cfg snapshot) data in
       (in_working_set cfg read = true → LABEL_TOMORROW cfg ∈ card_idLabels card →
          result.1 !! i
          = Some (set_idLabels (py_remove (LABEL_TOMORROW cfg) (card_idLabels card))
                    (set_idList (LIST_TOMORROW cfg) card))
          ∧ cards_update (card_id card)
              {| upd_name := None; upd_desc := None; upd_closed := None;
                 upd_due := None; upd_idLabels := None;
                 upd_idList := Some (LIST_TOMORROW cfg) |} ∈ result.2
          ∧ cards_delete_idLabel_idLabel (LABEL_TOMORROW cfg) (card_id card) ∈ result.2)
       ∧ (in_working_set cfg read = true → LABEL_TOMORROW cfg ∉ card_idLabels card →
          result.1 !! i = Some card)
       ∧ (in_working_set cfg read = false → result.1 !! i = Some card)).
Proof.
  split_and!.
  - unfold in_nightly_window, time. rewrite bool_decide_eq_true. lia.
  - intros Hout. unfold tomorrow_scheduling. by rewrite Hout.
  - intros Hin i read card Hread Hcard. unfold tomorrow_scheduling. rewrite Hin. simpl.
    pose proof (positions_NoDup (in_working_set cfg) 0 snapshot) as Hnd.
    fold (working_set cfg snapshot) in Hnd.
    rewrite for_cards_lookup, for_cards_calls by done.
    split_and!.
    + intros Hws Hlabel.
      assert (i ∈ working_set cfg snapshot) as Hi by (apply working_set_spec; eauto).
      rewrite decide_True, Hcard by done. simpl.
      unfold schedule_tomorrow, carries. rewrite bool_decide_eq_true_2 by done. simpl.
      split; [done|].
      split; apply list_elem_of_In, in_flat_map; exists i;
        (split; [by apply list_elem_of_In|]); rewrite Hcard; simpl;
        unfold schedule_tomorrow, carries; rewrite bool_decide_eq_true_2 by done;
        simpl; auto.
    + intros Hws Hlabel.
      assert (i ∈ working_set cfg snapshot) as Hi by (apply working_set_spec; eauto).
      rewrite decide_True, Hcard by done. simpl.
      unfold schedule_tomorrow, carries. by rewrite bool_decide_eq_false_2 by done.
    + intros Hws. rewrite decide_False; [done|].
      intros (c & Hc & Hin')%working_set_spec. congruence.
Qed.

Lemma tomorrow_scheduling_window_witness :
  (tomorrow_scheduling Samples.config (time 1 30 0)
     (working_set Samples.config [Samples.errand]) [Samples.errand]).1 !! 0%nat
  = Some (set_idLabels [] (set_idList "list-tomorrow" Samples.errand)).
Proof.
  refine (proj1 (proj1 (proj2 (proj2
            (tomorrow_scheduling_window Samples.config (time 1 30 0)
               [Samples.errand] [Samples.errand])) _
            0%nat Samples.errand Samples.errand _ _) _ _)).
  - reflexivity.
  - reflexivity.
  - reflexivity.
  - reflexivity.
  - by apply list_elem_of_singleton.
Defined.

(** C8, as stated, fails: at half past one a run on a board that holds an
    archived card with the tomorrow label, which is no progress label in
    the sample configuration, makes no call at all: the card is not in
    the working set and stays where it is. *)
Lemma tomorrow_scheduling_skips_archived :
  in_nightly_window (now_time Samples.night_clock) = true
  ∧ LABEL_TOMORROW Samples.config ∈ card_idLabels Samples.archived
  ∧ working_set Samples.config [Samples.archived] = []
  ∧ tomorrow_scheduling Samples.config (now_time Samples.night_clock)
      (working_set Samples.config [Samples.archived]) [Samples.archived]
    = ([Samples.archived], [])
  ∧ main Samples.config Samples.fresh Samples.night_clock [Samples.archived] = ([], None).
Proof.
  split_and!; [done|by apply list_elem_of_singleton|by vm_compute..].
Qed.

(** ** The project aggregator *)

Lemma add_card_lookup card labels projects l :
  add_card card labels projects !! l
  = if decide (label_count l labels = 0%nat) then projects !! l
    else Some (default [] (projects !! l)
                 ++ replicate (label_count l labels) (card_name card, card_closed card)).
Proof.
  revert projects. induction labels as [|a labels IH]; intros projects; simpl; [done|].
  unfold label_count in *. unfold colorless.
  destruct (decide (label_color a = None)) as [Hcol|Hcol].
  - rewrite bool_decide_eq_true_2 by done. simpl. rewrite IH. clear IH.
    set (projects' := if bool_decide (label_id a ∉ dom projects)
                      then <[label_id a := []]> projects else projects).
    destruct (decide (label_id a = l)) as [<-|Hne].
    + rewrite filter_cons_True by done. simpl.
      rewrite lookup_insert_eq. simpl.
      assert (default [] (projects' !! label_id a) = default [] (projects !! label_id a)) as ->.
      { unfold projects'. case_bool_decide as Hdom; [|done].
        rewrite lookup_insert_eq. apply not_elem_of_dom in Hdom. by rewrite Hdom. }
      destruct (decide _) as [E|E]; [by rewrite E|by rewrite <-app_assoc].
    + rewrite filter_cons_False by (by intros [_ ?]).
      rewrite lookup_insert_ne by done.
      assert (projects' !! l = projects !! l) as ->; [|done].
      unfold projects'. case_bool_decide; [|done]. by rewrite lookup_insert_ne.
  - rewrite bool_decide_eq_false_2 by done. simpl.
    rewrite filter_cons_False by (by intros [? _]). apply IH.
Qed.

Lemma aggregate_from_lookup cfg cards projects project_cards l :
  (aggregate_from cfg cards projects project_cards).1 !! l
  = match flat_map (card_entries cfg l) cards with
    | [] => projects !! l
    | entries => Some (default [] (projects !! l) ++ entries)
    end.
Proof.
  revert projects project_cards.
  induction cards as [|card cards IH]; intros projects project_cards; simpl; [done|].
  unfold card_entries at 1.
  case_bool_decide; simpl; [apply IH|].
  destruct (carries (LABEL_SNOOZE cfg) card); simpl; [apply IH|].
  rewrite IH, add_card_lookup. clear IH.
  destruct (decide (label_count l (card_labels card) = 0%nat)) as [->|Hn]; [done|].
  destruct (label_count l (card_labels card)) as [|n]; [done|]. simpl.
  destruct (flat_map (card_entries cfg l) cards) as [|e entries].
  - by rewrite app_nil_r.
  - by rewrite <-app_assoc.
Qed.

Lemma aggregate_from_cards cfg cards projects project_cards :
  (aggregate_from cfg cards projects project_cards).2
  = project_cards ++ filter (λ c, card_idList c = LIST_PROJECTS cfg) cards.
Proof.
  revert projects project_cards.
  induction cards as [|card cards IH]; intros projects project_cards; simpl.
  { by rewrite app_nil_r. }
  case_bool_decide.
  - rewrite IH, filter_cons_True by done. by rewrite <-app_assoc.
  - rewrite filter_cons_False by done. by destruct (carries _ card).
Qed.

Lemma label_count_pos l labels :
  (0 < label_count l labels)%nat
  ↔ Exists (λ a, label_color a = None ∧ label_id a = l) labels.
Proof.
  unfold label_count. rewrite Exists_exists. split.
  - intros Hlen. destruct (filter _ labels) as [|a f] eqn:E; simpl in *; [lia|].
    assert (a ∈ filter (λ a, label_color a = None ∧ label_id a = l) labels)
      as [HP Ha]%list_elem_of_filter by (rewrite E; by left).
    by exists a.
  - intros (a & Ha & HP).
    assert (a ∈ filter (λ a, label_color a = None ∧ label_id a = l) labels) as Hf
      by (by apply list_elem_of_filter).
    destruct (filter _ labels); [by apply elem_of_nil in Hf|simpl; lia].
Qed.

Lemma filter_none {A} (P : A → Prop) `{∀ x, Decision (P x)} (l : list A) :
  (∀ x, x ∈ l → ¬ P x) → filter P l = [].
Proof.
  induction l as [|a l IH]; intros Hno; [done|].
  rewrite filter_cons_False by (apply Hno; by left).
  apply IH. intros x Hx. apply Hno. by right.
Qed.

Lemma filter_all {A} (P : A → Prop) `{∀ x, Decision (P x)} (l : list A) :
  (∀ x, x ∈ l → P x) → filter P l = l.
Proof.
  induction l as [|a l IH]; intros Hall; [done|].
  rewrite filter_cons_True by (apply Hall; by left).
  f_equal. apply IH. intros x Hx. apply Hall. by right.
Qed.

Lemma label_count_le_1 l labels :
  NoDup (label_id <$> labels) → (label_count l labels ≤ 1)%nat.
Proof.
  unfold label_count. induction labels as [|a labels IH]; simpl; [lia|].
  intros [Hnotin Hnd]%NoDup_cons.
  destruct (decide (label_color a = None ∧ label_id a = l)) as [[Hcol Hid]|Hno].
  - rewrite filter_cons_True by done. simpl.
    assert (filter (λ a, label_color a = None ∧ label_id a = l) labels = []) as ->; [|simpl; lia].
    apply filter_none. intros b Hb [_ Hbl]. apply Hnotin.
    apply list_elem_of_fmap. exists b. split; [congruence|done].
  - rewrite filter_cons_False by done. by apply IH.
Qed.

Lemma card_entries_contributes cfg l card :
  NoDup (label_id <$> card_labels card) →
  card_entries cfg l card
  = if decide (contributes cfg l card) then [(card_name card, card_closed card)] else [].
Proof.
  intros Hnd. unfold card_entries, contributes, carries.
  pose proof (label_count_le_1 l _ Hnd) as Hle.
  pose proof (label_count_pos l (card_labels card)) as Hpos.
  case_bool_decide as Hlist.
  { rewrite decide_False; [done|]. by intros [? _]. }
  case_bool_decide as Hsnooze; simpl.
  { rewrite decide_False; [done|]. by intros (_ & ? & _). }
  destruct (label_count l (card_labels card)) as [|[|n]]; simpl; [| |lia].
  - rewrite decide_False; [done|]. intros (_ & _ & He). apply Hpos in He. lia.
  - rewrite decide_True; [done|]. split_and!; [done..|]. apply Hpos. lia.
Qed.

Lemma card_entries_nil cfg l card :
  card_entries cfg l card = [] ↔ ¬ contributes cfg l card.
Proof.
  unfold card_entries, contributes, carries.
  pose proof (label_count_pos l (card_labels card)) as Hpos.
  case_bool_decide as Hlist; [by split; [intros _ [? _]|]|].
  case_bool_decide as Hsnooze; simpl; [by split; [intros _ (_ & ? & _)|]|].
  destruct (label_count l (card_labels card)) as [|n]; simpl.
  - split; [|done]. intros _ (_ & _ & He). apply Hpos in He. lia.
  - split; [done|]. intros Hno. exfalso. apply Hno. split_and!; [done..|].
    apply Hpos. lia.
Qed.

Lemma flat_map_nil {A B} (f : A → list B) (l : list A) :
  flat_map f l = [] ↔ ∀ a, a ∈ l → f a = [].
Proof.
  induction l as [|a l IH]; simpl.
  - split; [by intros _ ? ?%elem_of_nil|done].
  - split.
    + intros [Ha Hl]%app_eq_nil b [->|Hb]%elem_of_cons; [done|]. by apply IH.
    + intros H. rewrite (H a) by left. simpl. apply IH. intros b Hb. apply H. by right.
Qed.

Lemma flat_map_project_related cfg l data :
  flat_map (card_entries cfg l) (project_related data) = flat_map (card_entries cfg l) data.
Proof.
  unfold project_related. induction data as [|c data IH]; simpl; [done|].
  destruct (decide (existsb colorless (card_labels c) = true)) as [Hc|Hc].
  - rewrite filter_cons_True by done. simpl. by rewrite IH.
  - rewrite filter_cons_False by done. rewrite IH.
    assert (card_entries cfg l c = []) as ->; [|done].
    apply card_entries_nil. intros (_ & _ & (a & Ha & Hcol & _)%Exists_exists).
    apply Hc, existsb_exists. exists a. split; [by apply list_elem_of_In|].
    unfold colorless. by apply bool_decide_eq_true_2.
Qed.

(** A project has a list exactly when some card contributes to it. *)
Lemma aggregate_lookup_None cfg data l :
  (aggregate cfg (project_related data)).1 !! l = None
  ↔ ∀ c, c ∈ data → ¬ contributes cfg l c.
Proof.
  unfold aggregate. rewrite aggregate_from_lookup, flat_map_project_related.
  rewrite lookup_empty. simpl.
  destruct (flat_map (card_entries cfg l) data) as [|e es] eqn:E.
  - split; [|done]. intros _ c Hc. apply card_entries_nil.
    by eapply (proj1 (flat_map_nil _ _) E).
  - split; [done|]. intros Hno.
    assert (flat_map (card_entries cfg l) data = []) as E'; [|congruence].
    apply flat_map_nil. intros c Hc. apply card_entries_nil. by apply Hno.
Qed.

(** C6: the aggregator is a function of the card list it scans, the
    board as the run holds it in memory, and returns the grouping; it
    makes no call.  For every label identifier the list of the project
    holds one pair (title, closed) for every card that has the label as a
    colorless label, is outside the projects list and does not carry the
    snooze label, in the order of the board, and nothing else; a project
    without such a card has no list.  The cards of the projects list that
    have a colorless label are set aside as project cards.  (The labels of
    one card are distinct, as on a board.) *)
Theorem aggregator_groups (cfg : Config) (data : list Card) (l : string) :
  (∀ c, c ∈ data → NoDup (label_id <$> card_labels c)) →
  (aggregate cfg (project_related data)).1 !! l
  = match (λ c, (card_name c, card_closed c)) <$> filter (contributes cfg l) data with
    | [] => None
    | entries => Some entries
    end
  ∧ (aggregate cfg (project_related data)).2
    = filter (λ c, card_idList c = LIST_PROJECTS cfg) (project_related data)
  ∧ (∀ c, card_idList c = LIST_PROJECTS cfg ∨ LABEL_SNOOZE cfg ∈ card_idLabels c →
          ¬ contributes cfg l c).
Proof.
  intros Hnd. split_and!.
  - unfold aggregate. rewrite aggregate_from_lookup, flat_map_project_related.
    rewrite lookup_empty. simpl.
    assert (flat_map (card_entries cfg l) data
            = (λ c, (card_name c, card_closed c)) <$> filter (contributes cfg l) data) as ->.
    { induction data as [|c data IH]; simpl; [done|].
      rewrite card_entries_contributes by (apply Hnd; by left).
      rewrite IH by (intros; apply Hnd; by right).
      destruct (decide (contributes cfg l c)).
      - by rewrite filter_cons_True.
      - by rewrite filter_cons_False. }
    by destruct (_ <$> _).
  - unfold aggregate. by rewrite aggregate_from_cards.
  - intros c [Hlist|Hsnooze] (H1 & H2 & _); done.
Qed.

Lemma aggregator_groups_witness :
  (aggregate Samples.config (project_related Samples.garden_board)).1 !! "lbl-garden"
  = Some [("Dig beds", false)].
Proof.
  refine (proj1 (aggregator_groups Samples.config Samples.garden_board "lbl-garden" _)).
  intros c Hc. unfold Samples.garden_board in Hc.
  apply elem_of_cons in Hc as [->|Hc].
  - refine (bool_decide_unpack _ _). by vm_compute.
  - apply list_elem_of_singleton in Hc as ->.
    refine (bool_decide_unpack _ _). by vm_compute.
Defined.

(** ** The checklist reconciler: orphans *)

Lemma reconcile_labels_dom fresh k projects card labels :
  dom (reconcile_labels fresh k projects card labels).1.2 = dom projects.
Proof.
  induction labels as [|a labels IH]; simpl; [done|].
  destruct (_ || _); [done|].
  destruct (projects !! label_id a) as [entries|] eqn:Hl; [|done].
  unfold reconcile_label.
  destruct (match next_checklist _ _ with Some _ => _ | None => _ end) as [[cl k'] c0].
  destruct (reconcile_items _ _ _ _) as [c1 entries'].
  destruct (new_items _ _ _ _) as [c2 k'']. simpl.
  rewrite dom_insert_L. apply (elem_of_dom_2 (D:=gset string)) in Hl.
  apply subseteq_union_1_L. by apply singleton_subseteq_l.
Qed.

Lemma reconciler_dom fresh k projects project_cards :
  dom (reconciler fresh k projects project_cards).1.2 = dom projects.
Proof.
  revert k projects. induction project_cards as [|card cards IH]; intros k projects; simpl; [done|].
  pose proof (reconcile_labels_dom fresh k projects card (card_labels card)) as Hd.
  unfold reconcile_card.
  destruct (reconcile_labels _ _ _ _ _) as [[k1 projects1] c1]. simpl in Hd.
  specialize (IH k1 projects1).
  destruct (reconciler _ _ _ _) as [[k2 projects2] c2]. simpl in *. congruence.
Qed.

(** Without a colorless label of the name of the card that has a list in
    [projects], the label loop ends in its [else] branch. *)
Lemma reconcile_labels_orphan fresh k projects card labels :
  (∀ a, a ∈ labels → label_name a = card_name card → label_color a = None →
        projects !! label_id a = None) →
  reconcile_labels fresh k projects card labels = (k, projects, orphan_cleanup card).
Proof.
  induction labels as [|a labels IH]; intros Hno; simpl; [done|].
  assert (reconcile_labels fresh k projects card labels = (k, projects, orphan_cleanup card))
    as Hrest by (apply IH; intros; apply Hno; [by right|done..]).
  unfold colorless.
  destruct (decide (label_name a = card_name card)) as [Hname|Hname].
  - rewrite (bool_decide_eq_false_2 (label_name a ≠ card_name card)) by (by intros ?).
    destruct (decide (label_color a = None)) as [Hcol|Hcol].
    + rewrite bool_decide_eq_true_2 by done. simpl.
      by rewrite (Hno a) by (by left || done).
    + by rewrite bool_decide_eq_false_2 by done.
  - by rewrite (bool_decide_eq_true_2 (label_name a ≠ card_name card)) by done.
Qed.

(** The project cards are the cards of the projects list that have a
    colorless label. *)
Lemma project_cards_spec cfg data c :
  c ∈ (aggregate cfg (project_related data)).2
  ↔ c ∈ data ∧ card_idList c = LIST_PROJECTS cfg
    ∧ Exists (λ a, label_color a = None) (card_labels c).
Proof.
  unfold aggregate. rewrite aggregate_from_cards. simpl. unfold project_related.
  rewrite !list_elem_of_filter, Exists_exists.
  assert (existsb colorless (card_labels c) = true
          ↔ ∃ a, a ∈ card_labels c ∧ label_color a = None) as ->; [|tauto].
  rewrite existsb_exists. unfold colorless.
  split; intros (a & Ha & Hcol); exists a.
  - apply bool_decide_eq_true in Hcol. by rewrite <-list_elem_of_In in Ha.
  - rewrite <-list_elem_of_In. by rewrite bool_decide_eq_true.
Qed.

(** C7, as amended: the loop over the project cards visits the cards of
    the projects list that have at least one colorless label.  When it
    reaches such a card on which no colorless label of the name of the
    card has a contributing card, it makes one call, the deletion of the
    first checklist named "@" and the title, or no call when the card has
    no such checklist; the grouping is left as it was. *)
Theorem orphan_checklist_deleted (cfg : Config) (fresh : nat → string)
    (data before after : list Card) (card : Card) :
  (aggregate cfg (project_related data)).2 = before ++ card :: after →
  (∀ a, a ∈ card_labels card → label_name a = card_name card → label_color a = None →
        ∀ c, c ∈ data → ¬ contributes cfg (label_id a) c) →
  (card ∈ data ∧ card_idList card = LIST_PROJECTS cfg
   ∧ Exists (λ a, label_color a = None) (card_labels card))
  ∧ let '(k, projects, _) :=
      reconciler fresh 0 (aggregate cfg (project_related data)).1 before in
    reconcile_card fresh k projects card
    = (k, projects,
       match next_checklist ("@" +:+ card_name card) (card_checklists card) with
       | Some checklist => [checklists_delete (checklist_id checklist)]
       | None => []
       end).
Proof.
  intros Hcards Hno. split.
  { apply project_cards_spec. rewrite Hcards. apply elem_of_app. right. by left. }
  pose proof (reconciler_dom fresh 0 (aggregate cfg (project_related data)).1 before) as Hdom.
  destruct (reconciler _ _ _ before) as [[k projects] calls]. simpl in Hdom.
  unfold reconcile_card. apply reconcile_labels_orphan.
  intros a Ha Hname Hcol. apply (not_elem_of_dom (D:=gset string)). rewrite Hdom.
  apply not_elem_of_dom, aggregate_lookup_None. by apply Hno.
Qed.

Lemma orphan_checklist_deleted_witness :
  reconcile_card Samples.fresh 0
    (aggregate Samples.config (project_related Samples.orphan_board)).1
    Samples.orphan_master
  = (0%nat, (aggregate Samples.config (project_related Samples.orphan_board)).1,
     [checklists_delete "cl1"]).
Proof.
  refine (proj2 (orphan_checklist_deleted Samples.config Samples.fresh
                   Samples.orphan_board [] [] Samples.orphan_master _ _)).
  - reflexivity.
  - intros a _ _ _ c Hc. apply list_elem_of_singleton in Hc as ->.
    intros [Hlist _]. by apply Hlist.
Defined.

(** C7, as stated, fails: a card of the projects list that has lost every
    label has no colorless label of its own name, and it owns the
    checklist "@Garden"; the run makes no call, the checklist stays. *)
Lemma orphan_checklist_of_bare_master_stays :
  card_idList Samples.bare_master = LIST_PROJECTS Samples.config
  ∧ (∀ a, a ∈ card_labels Samples.bare_master →
          ¬ (label_name a = card_name Samples.bare_master ∧ label_color a = None))
  ∧ next_checklist ("@" +:+ card_name Samples.bare_master)
      (card_checklists Samples.bare_master) = Some Samples.garden_checklist
  ∧ projects_stage Samples.config Samples.fresh 0 (project_related [Samples.bare_master])
    = (0%nat, [])
  ∧ main Samples.config Samples.fresh Samples.clock [Samples.bare_master] = ([], None).
Proof.
  split_and!; [done|by intros a ?%elem_of_nil|by vm_compute..].
Qed.

(** ** Housekeeping *)

(** The loop deletes the first of its cards that has the reserved title,
    and only that one. *)
Lemma housekeeping_first cards :
  housekeeping cards
  = match list_find (λ c, card_name c = check_card_name) cards with
    | Some (_, card) => [cards_delete (card_id card)]
    | None => []
    end.
Proof.
  induction cards as [|c cards IH]; simpl; [done|].
  case_bool_decide as Hname.
  - by rewrite decide_True.
  - rewrite decide_False by done. rewrite IH.
    by destruct (list_find _ cards) as [[i c']|].
Qed.

Lemma housekeeping_at_most_one cards : (length (housekeeping cards) ≤ 1)%nat.
Proof.
  rewrite housekeeping_first. destruct (list_find _ cards) as [[i c]|]; simpl; lia.
Qed.

(** C9, failing input: the loop of line 269 runs over [cards] as rebound
    in line 190, the cards with a colorless label.  A board that holds
    the card of the monitor, which has no label, ends the run without a
    call: the card is not deleted. *)
Lemma check_card_without_label_stays :
  card_name Samples.check_card = "[CHECK] Problem with Trello script"
  ∧ Samples.check_card ∈ [Samples.check_card]
  ∧ project_related [Samples.check_card] = []
  ∧ main Samples.config Samples.fresh Samples.clock [Samples.check_card] = ([], None).
Proof.
  split_and!; [done|by left|by vm_compute..].
Qed.

(** The same card is deleted once it carries a project label. *)
Lemma check_card_with_project_label_goes :
  main Samples.config Samples.fresh Samples.clock
    [Samples.with_labels [Samples.garden] Samples.check_card]
  = ([cards_delete "c8"], None).
Proof. by vm_compute. Qed.

(** ** Two masters of one project *)

(** C1, failing input: two cards of the projects list are named "Garden"
    and carry the project label; the task "Dig beds" is open, and each
    master owns a checklist that mirrors it already.  The first master
    consumes the entry of the grouping, the second master finds the list
    empty and its item, whose text matches the aggregated entry and
    whose state agrees with it, is deleted. *)
Lemma second_master_loses_its_item :
  (aggregate Samples.config (project_related Samples.mirrored_twin_board)).1 !! "lbl-garden"
  = Some [("Dig beds", false)]
  ∧ (aggregate Samples.config (project_related Samples.mirrored_twin_board)).2
    = [set_checklists [Samples.garden_checklist] Samples.garden_master;
       set_checklists [Samples.twin_checklist] Samples.garden_twin]
  ∧ (item_name <$> checkItems Samples.twin_checklist,
     item_state <$> checkItems Samples.twin_checklist) = (["Dig beds"], [incomplete])
  ∧ projects_stage Samples.config Samples.fresh 0
      (project_related Samples.mirrored_twin_board)
    = (0%nat, [checklists_delete_checkItem_idCheckItem "i2" "cl2"]).
Proof. split_and!; by vm_compute. Qed.

(** C4, failing input: on the board with the two masters and no
    checklist the first run creates a checklist with the item "Dig beds"
    on each master; the second run, on the board the first run has left
    and on the same grouping, deletes the item of the second master. *)
Lemma second_run_deletes_an_item :
  let run1 := main Samples.config Samples.fresh Samples.clock Samples.twin_board in
  let board := remote_apply run1.1 Samples.twin_board in
  let run2 := main Samples.config (λ k, Samples.fresh (4 + k)) Samples.clock board in
  run1 = ([cards_new_checklist "m1" "@Garden" "new0";
           checklists_new_checkItem "new0" "Dig beds" false "new1";
           cards_new_checklist "m2" "@Garden" "new2";
           checklists_new_checkItem "new2" "Dig beds" false "new3"], None)
  ∧ (aggregate Samples.config (project_related board)).1
    = (aggregate Samples.config (project_related Samples.twin_board)).1
  ∧ run2 = ([checklists_delete_checkItem_idCheckItem "new3" "new2"], None).
Proof. split_and!; by vm_compute. Qed.

(** ** One checklist against its list *)

Lemma py_remove_first {A} `{EqDecision A} (x : A) (l1 l2 : list A) :
  x ∉ l1 → py_remove x (l1 ++ x :: l2) = l1 ++ l2.
Proof.
  induction l1 as [|y l1 IH]; simpl; intros Hx.
  - by rewrite decide_True.
  - apply not_elem_of_cons in Hx as [Hxy Hx]. rewrite decide_False by done.
    by rewrite IH.
Qed.

(** The inner loop finds the first entry of the title of the item, and
    [remove] takes that very entry out of the list. *)
Lemma match_item_from card item pre rest :
  (∀ e, e ∈ pre → e.1 ≠ item_name item) →
  match_item card item (pre ++ rest) rest
  = (λ r, (state_updates card item r.1, pre ++ r.2)) <$> consume (item_name item) rest.
Proof.
  revert pre. induction rest as [|[desc closed] rest IH]; intros pre Hpre; simpl; [done|].
  destruct (decide (desc = item_name item)) as [Hd|Hd].
  - rewrite bool_decide_eq_false_2 by (by intros ?). rewrite bool_decide_eq_true_2 by done.
    simpl. rewrite py_remove_first; [done|].
    intros Hin. by apply (Hpre _ Hin).
  - rewrite bool_decide_eq_true_2 by done. rewrite bool_decide_eq_false_2 by done.
    replace (pre ++ (desc, closed) :: rest) with ((pre ++ [(desc, closed)]) ++ rest)
      by (by rewrite <-app_assoc).
    rewrite IH.
    + destruct (consume (item_name item) rest) as [[b r]|]; simpl; [|done].
      by rewrite <-app_assoc.
    + intros e [He|He%list_elem_of_singleton]%elem_of_app; [by apply Hpre|by subst e].
Qed.

Lemma match_item_consume card item entries :
  match_item card item entries entries
  = (λ r, (state_updates card item r.1, r.2)) <$> consume (item_name item) entries.
Proof. apply (match_item_from card item []). by intros e ?%elem_of_nil. Qed.

Lemma state_updates_agree card item closed :
  item_state item = state_of_checked closed → state_updates card item closed = [].
Proof.
  intros Hs. unfold state_updates. rewrite Hs. by destruct closed.
Qed.

Lemma state_updates_differ card item closed :
  item_state item ≠ state_of_checked closed →
  state_updates card item closed
  = [cards_update_checkItem_idCheckItem (item_id item) (card_id card)
       (state_of_checked closed)].
Proof.
  intros Hs. unfold state_updates.
  by destruct closed, (item_state item).
Qed.

Lemma reconcile_items_rest card checklist items entries :
  (reconcile_items card checklist items entries).2 = (settle items entries).2.
Proof.
  revert entries. induction items as [|item items IH]; intros entries; simpl; [done|].
  rewrite match_item_consume.
  destruct (consume (item_name item) entries) as [[b rest]|]; simpl.
  - specialize (IH rest). destruct (reconcile_items _ _ items rest), (settle items rest).
    by simpl in *.
  - specialize (IH entries).
    destruct (reconcile_items _ _ items entries), (settle items entries). by simpl in *.
Qed.

Lemma reconcile_items_addresses card checklist items entries :
  Forall (addresses (item_id <$> items)) (reconcile_items card checklist items entries).1.
Proof.
  revert entries. induction items as [|item items IH]; intros entries; simpl; [done|].
  rewrite match_item_consume.
  assert (∀ entries', Forall (addresses (item_id item :: (item_id <$> items)))
                        (reconcile_items card checklist items entries').1) as IH'.
  { intros entries'. eapply Forall_impl; [apply IH|].
    intros [] Hc; simpl in *; try done; by right. }
  destruct (consume (item_name item) entries) as [[b rest]|]; simpl.
  - specialize (IH' rest). destruct (reconcile_items _ _ items rest). simpl in *.
    apply Forall_app. split; [|done]. unfold state_updates.
    apply Forall_app. split; destruct (_ && _); repeat constructor.
  - specialize (IH' entries). destruct (reconcile_items _ _ items entries). simpl in *.
    constructor; [by left|done].
Qed.

Lemma remote_items_after_app card checklist calls1 calls2 items :
  remote_items_after card checklist (calls1 ++ calls2) items
  = remote_items_after card checklist calls2 (remote_items_after card checklist calls1 items).
Proof. unfold remote_items_after. apply foldl_app. Qed.

(** Calls that address other items leave an item where it is. *)
Lemma remote_items_frame card checklist calls ids x items :
  Forall (addresses ids) calls → item_id x ∉ ids →
  remote_items_after card checklist calls (x :: items)
  = x :: remote_items_after card checklist calls items.
Proof.
  intros Hcalls Hx. revert items.
  induction Hcalls as [|c calls Hc Hcalls IH]; intros items; [done|].
  unfold remote_items_after in *. simpl. rewrite <-IH. f_equal.
  destruct c; simpl in *; try done.
  - case_bool_decide; [|done]. simpl.
    rewrite bool_decide_eq_false_2; [done|]. by intros <-.
  - case_bool_decide; [|done]. rewrite filter_cons_True; [done|]. by intros <-.
Qed.

Lemma set_state_same item : set_state (item_state item) item = item.
Proof. by destruct item. Qed.

(** The board after the calls of the item loop holds the items the
    checklist keeps, in the state of their entries. *)
Lemma remote_items_settle card checklist items entries :
  NoDup (item_id <$> items) →
  remote_items_after (card_id card) checklist
    (reconcile_items card checklist items entries).1 items
  = (settle items entries).1.
Proof.
  revert entries. induction items as [|item items IH]; intros entries Hnd; simpl.
  { done. }
  apply NoDup_cons in Hnd as [Hitem Hnd].
  assert (∀ j, j ∈ items → item_id j ≠ item_id item) as Hother.
  { intros j Hj Heq. apply Hitem. rewrite <-Heq. by apply list_elem_of_fmap_2. }
  rewrite match_item_consume.
  destruct (consume (item_name item) entries) as [[b rest]|]; simpl.
  - pose proof (reconcile_items_addresses card checklist items rest) as Haddr.
    specialize (IH rest Hnd).
    destruct (reconcile_items _ _ items rest) as [calls rest'].
    destruct (settle items rest) as [kept rest'']. simpl in *.
    rewrite remote_items_after_app.
    assert (remote_items_after (card_id card) checklist (state_updates card item b)
              (item :: items)
            = set_state (state_of_checked b) item :: items) as ->.
    { destruct (decide (item_state item = state_of_checked b)) as [Hs|Hs].
      - rewrite state_updates_agree by done. simpl. by rewrite <-Hs, set_state_same.
      - rewrite state_updates_differ by done. unfold remote_items_after. simpl.
        rewrite !bool_decide_eq_true_2 by done. f_equal.
        rewrite <-(list_fmap_id items) at 2. apply list_fmap_ext.
        intros i j Hj%list_elem_of_lookup_2.
        by rewrite bool_decide_eq_false_2 by (by apply Hother). }
    rewrite (remote_items_frame _ _ _ _ _ _ Haddr) by done. by rewrite IH.
  - pose proof (reconcile_items_addresses card checklist items entries) as Haddr.
    specialize (IH entries Hnd).
    destruct (reconcile_items _ _ items entries) as [calls rest'].
    destruct (settle items entries) as [kept rest'']. simpl in *.
    unfold remote_items_after in *. simpl. rewrite bool_decide_eq_true_2 by done.
    rewrite filter_cons_False by (by intros ?).
    rewrite (filter_all _ items); [done|].
    intros j Hj. by apply Hother.
Qed.

Lemma new_items_count fresh k checklist entries :
  (new_items fresh k checklist entries).2 = (k + length entries)%nat.
Proof.
  revert k. induction entries as [|[desc closed] entries IH]; intros k; simpl; [lia|].
  specialize (IH (S k)). destruct (new_items fresh (S k) checklist entries). simpl in *. lia.
Qed.

(** The calls of the last loop put the created items behind the others. *)
Lemma remote_items_created card checklist fresh k entries items :
  remote_items_after card checklist (new_items fresh k checklist entries).1 items
  = items ++ created fresh k entries.
Proof.
  revert k items. induction entries as [|[desc closed] entries IH]; intros k items; simpl.
  { by rewrite app_nil_r. }
  specialize (IH (S k)). destruct (new_items fresh (S k) checklist entries) as [calls k'].
  unfold remote_items_after in *. simpl in *.
  rewrite bool_decide_eq_true_2 by done. rewrite IH. by rewrite <-app_assoc.
Qed.

Lemma consume_Permutation name entries b rest :
  consume name entries = Some (b, rest) → entries ≡ₚ (name, b) :: rest.
Proof.
  revert rest. induction entries as [|[desc closed] entries IH]; intros rest; simpl; [done|].
  case_bool_decide as Hd.
  - intros [= <- <-]. by subst desc.
  - destruct (consume name entries) as [[b' rest']|]; simpl; [|done].
    intros [= <- <-]. rewrite (IH rest') by done. apply Permutation_swap.
Qed.

Lemma consume_None name entries :
  consume name entries = None ↔ name ∉ entries.*1.
Proof.
  induction entries as [|[desc closed] entries IH]; simpl.
  - split; [intros _; apply not_elem_of_nil|done].
  - rewrite not_elem_of_cons. case_bool_decide as Hd.
    + split; [done|]. by intros [? _].
    + destruct (consume name entries); simpl.
      * split; [done|]. intros [_ Hn]. by apply IH in Hn.
      * split; [|done]. intros _. split; [done|]. by apply IH.
Qed.

Lemma entry_of_set_state b item :
  entry_of (set_state (state_of_checked b) item) = (item_name item, b).
Proof. unfold entry_of. by destruct b. Qed.

(** The items kept and the entries left are, together, the list. *)
Lemma settle_Permutation items entries :
  (entry_of <$> (settle items entries).1) ++ (settle items entries).2 ≡ₚ entries.
Proof.
  revert entries. induction items as [|item items IH]; intros entries; simpl; [done|].
  destruct (consume (item_name item) entries) as [[b rest]|] eqn:Hc; [|apply IH].
  specialize (IH rest). destruct (settle items rest) as [kept rest']. simpl in *.
  rewrite entry_of_set_state, IH. symmetry. by apply consume_Permutation.
Qed.

Lemma created_entries fresh k entries : entry_of <$> created fresh k entries = entries.
Proof.
  revert k. induction entries as [|[desc closed] entries IH]; intros k; simpl; [done|].
  rewrite IH. unfold entry_of. simpl. by destruct closed.
Qed.

Lemma reconcile_items_app card checklist items1 items2 entries :
  reconcile_items card checklist (items1 ++ items2) entries
  = let '(calls1, entries1) := reconcile_items card checklist items1 entries in
    let '(calls2, entries2) := reconcile_items card checklist items2 entries1 in
    (calls1 ++ calls2, entries2).
Proof.
  revert entries. induction items1 as [|item items1 IH]; intros entries; simpl.
  { by destruct (reconcile_items card checklist items2 entries). }
  destruct (match match_item card item entries entries with
            | Some r => r
            | None => _
            end) as [calls entries'].
  rewrite IH. destruct (reconcile_items card checklist items1 entries') as [calls1 entries1].
  destruct (reconcile_items card checklist items2 entries1) as [calls2 entries2].
  by rewrite app_assoc.
Qed.

(** The items that were kept match the same entries again, and agree
    with them. *)
Lemma reconcile_items_settled card checklist items entries :
  reconcile_items card checklist (settle items entries).1 entries
  = ([], (settle items entries).2).
Proof.
  revert entries. induction items as [|item items IH]; intros entries; simpl; [done|].
  destruct (consume (item_name item) entries) as [[b rest]|] eqn:Hc; [|apply IH].
  specialize (IH rest). destruct (settle items rest) as [kept rest']. simpl in *.
  rewrite match_item_consume. simpl. rewrite Hc. simpl.
  rewrite state_updates_agree by done. by rewrite IH.
Qed.

(** The created items consume the entries they were created from. *)
Lemma reconcile_items_created card checklist fresh k entries :
  reconcile_items card checklist (created fresh k entries) entries = ([], []).
Proof.
  revert k. induction entries as [|[desc closed] entries IH]; intros k; simpl; [done|].
  rewrite bool_decide_eq_false_2 by (by intros ?). simpl.
  rewrite decide_True by done. rewrite state_updates_agree by done. by rewrite IH.
Qed.

(** X17: one checklist, reconciled against a list of its own: the item loop
    leaves the entries that [settle] leaves; the board then holds the
    kept items followed by the created ones; as (title, closed) pairs
    these are the list, up to the order; and a second reconciliation of
    the new checklist against the same list makes no call. *)
Theorem checklist_converges (card : Card) (checklist : string) (fresh : nat → string)
    (k : nat) (items : list CheckItem) (entries : list (string * bool)) :
  NoDup (item_id <$> items) →
  let '(calls1, rest) := reconcile_items card checklist items entries in
  let '(calls2, k') := new_items fresh k checklist rest in
  let items' := remote_items_after (card_id card) checklist (calls1 ++ calls2) items in
  items' = (settle items entries).1 ++ created fresh k (settle items entries).2
  ∧ entry_of <$> items' ≡ₚ entries
  ∧ reconcile_items card checklist items' entries = ([], [])
  ∧ ∀ k'', new_items fresh k'' checklist (reconcile_items card checklist items' entries).2
           = ([], k'').
Proof.
  intros Hnd.
  pose proof (reconcile_items_rest card checklist items entries) as Hrest.
  pose proof (remote_items_settle card checklist items entries Hnd) as Hkept.
  destruct (reconcile_items card checklist items entries) as [calls1 rest]. simpl in *.
  pose proof (remote_items_created (card_id card) checklist fresh k rest
                (settle items entries).1) as Hnew.
  destruct (new_items fresh k checklist rest) as [calls2 k']. simpl in *.
  rewrite remote_items_after_app, Hkept, Hnew, Hrest.
  assert (reconcile_items card checklist
            ((settle items entries).1 ++ created fresh k (settle items entries).2) entries
          = ([], [])) as Hagain.
  { rewrite reconcile_items_app, reconcile_items_settled.
    by rewrite reconcile_items_created. }
  split_and!; [done| |done|by rewrite Hagain].
  rewrite fmap_app, created_entries. apply settle_Permutation.
Qed.

(** ** One project card *)

Lemma reconcile_labels_project_label fresh k projects card labels :
  reconcile_labels fresh k projects card labels
  = match project_label projects card labels with
    | Some (a, entries) => reconcile_label fresh k projects card a entries
    | None => (k, projects, orphan_cleanup card)
    end.
Proof.
  induction labels as [|a labels IH]; simpl; [done|]. unfold colorless.
  destruct (decide (label_name a = card_name card ∧ label_color a = None)) as [[Hn Hc]|Hno].
  - rewrite bool_decide_eq_false_2 by (by intros ?).
    rewrite bool_decide_eq_true_2 by done. simpl.
    by destruct (projects !! label_id a).
  - destruct (decide (label_name a = card_name card)) as [Hn|Hn].
    + rewrite bool_decide_eq_false_2 by (by intros ?).
      rewrite bool_decide_eq_false_2 by (intros ?; by apply Hno). done.
    + by rewrite bool_decide_eq_true_2 by done.
Qed.

Lemma reconcile_items_card_id card card' checklist items entries :
  card_id card = card_id card' →
  reconcile_items card checklist items entries
  = reconcile_items card' checklist items entries.
Proof.
  intros Hid. revert entries. induction items as [|item items IH]; intros entries; simpl.
  { done. }
  rewrite !match_item_consume. unfold state_updates. rewrite Hid.
  destruct (consume (item_name item) entries) as [[b rest]|]; simpl; by rewrite IH.
Qed.

Lemma reconcile_items_on_items card checklist items entries :
  Forall on_items (reconcile_items card checklist items entries).1.
Proof.
  eapply Forall_impl; [apply reconcile_items_addresses|]. by intros [].
Qed.

Lemma new_items_on_items fresh k checklist entries :
  Forall on_items (new_items fresh k checklist entries).1.
Proof.
  revert k. induction entries as [|[desc closed] entries IH]; intros k; simpl; [done|].
  specialize (IH (S k)). destruct (new_items fresh (S k) checklist entries). simpl in *.
  by constructor.
Qed.

(** The calls on check items change nothing on a card but the items of
    its checklists. *)
Lemma remote_card_after_items calls card :
  Forall on_items calls →
  remote_card_after calls card
  = set_checklists
      ((λ l, set_checkItems
               (remote_items_after (card_id card) (checklist_id l) calls (checkItems l)) l)
         <$> card_checklists card)
      card.
Proof.
  intros Hcalls. revert card.
  induction Hcalls as [|c calls Hc Hcalls IH]; intros card.
  - unfold remote_card_after, remote_items_after. simpl.
    destruct card as [? ? ? ? ? ? ? ? checklists]. unfold set_checklists. simpl. f_equal.
    rewrite <-(list_fmap_id checklists) at 1. apply list_fmap_ext. by intros i [].
  - unfold remote_card_after in *. simpl. rewrite IH.
    assert (remote_call c card
            = set_checklists
                ((λ l, set_checkItems
                         (remote_items (card_id card) (checklist_id l) c (checkItems l)) l)
                   <$> card_checklists card)
                card) as -> by (by destruct c).
    unfold set_checklists. simpl. f_equal. rewrite <-list_fmap_compose.
    apply list_fmap_ext. by intros i l _.
Qed.

Lemma next_checklist_fmap name (f : Checklist → Checklist) checklists :
  (∀ l, checklist_name (f l) = checklist_name l) →
  next_checklist name (f <$> checklists) = f <$> next_checklist name checklists.
Proof.
  intros Hf. induction checklists as [|l checklists IH]; simpl; [done|].
  rewrite Hf. by case_bool_decide.
Qed.

Lemma next_checklist_None name checklists :
  next_checklist name checklists = None
  ↔ ∀ l, l ∈ checklists → checklist_name l ≠ name.
Proof.
  induction checklists as [|l checklists IH]; simpl.
  - split; [by intros _ ? ?%elem_of_nil|done].
  - case_bool_decide as Hn.
    + split; [done|]. intros H. exfalso. by apply (H l); [left|].
    + rewrite IH. split.
      * intros H l' [->|Hl']%elem_of_cons; [done|by apply H].
      * intros H l' Hl'. apply H. by right.
Qed.

Lemma next_checklist_app_None name checklists l :
  next_checklist name checklists = None → checklist_name l = name →
  next_checklist name (checklists ++ [l]) = Some l.
Proof.
  intros Hnone Hname. induction checklists as [|l' checklists IH]; simpl in *.
  - by rewrite bool_decide_eq_true_2.
  - case_bool_decide; [done|]. by apply IH.
Qed.

Lemma next_checklist_name name checklists l :
  next_checklist name checklists = Some l → checklist_name l = name ∧ l ∈ checklists.
Proof.
  induction checklists as [|l' checklists IH]; simpl; [done|].
  case_bool_decide.
  - intros [= ->]. split; [done|by left].
  - intros [? ?]%IH. split; [done|by right].
Qed.

Lemma project_label_card_name projects card card' labels :
  card_name card = card_name card' →
  project_label projects card labels = project_label projects card' labels.
Proof.
  intros Hname. induction labels as [|a labels IH]; simpl; [done|].
  rewrite Hname, IH. by destruct (decide _).
Qed.

Lemma reconcile_label_existing fresh k projects card a entries checklist :
  next_checklist (project_checklist_name card) (card_checklists card) = Some checklist →
  reconcile_label fresh k projects card a entries
  = let r := reconcile_items card (checklist_id checklist) (checkItems checklist) entries in
    let n := new_items fresh k (checklist_id checklist) r.2 in
    (n.2, <[label_id a := r.2]> projects, r.1 ++ n.1).
Proof.
  intros Hcl. unfold reconcile_label. rewrite Hcl.
  destruct (reconcile_items _ _ _ _) as [calls1 rest]. simpl.
  by destruct (new_items _ _ _ _).
Qed.

Lemma reconcile_label_missing fresh k projects card a entries :
  next_checklist (project_checklist_name card) (card_checklists card) = None →
  reconcile_label fresh k projects card a entries
  = let n := new_items fresh (S k) (fresh k) entries in
    (n.2, <[label_id a := entries]> projects,
     cards_new_checklist (card_id card) (project_checklist_name card) (fresh k) :: n.1).
Proof.
  intros Hcl. unfold reconcile_label. rewrite Hcl. simpl.
  by destruct (new_items _ _ _ _).
Qed.

Lemma checklist_after card checklist fresh k items entries :
  NoDup (item_id <$> items) →
  remote_items_after (card_id card) checklist
    ((reconcile_items card checklist items entries).1
       ++ (new_items fresh k checklist (reconcile_items card checklist items entries).2).1)
    items
  = (settle items entries).1 ++ created fresh k (settle items entries).2.
Proof.
  intros Hnd.
  rewrite remote_items_after_app, remote_items_settle, remote_items_created by done.
  by rewrite reconcile_items_rest.
Qed.

Lemma reconcile_items_again card checklist fresh k items entries :
  reconcile_items card checklist
    ((settle items entries).1 ++ created fresh k (settle items entries).2) entries
  = ([], []).
Proof.
  rewrite reconcile_items_app, reconcile_items_settled.
  by rewrite reconcile_items_created.
Qed.

Lemma only_checklist name checklists checklist :
  (length (filter (λ l, checklist_name l = name) checklists) ≤ 1)%nat →
  next_checklist name checklists = Some checklist →
  next_checklist name
    (filter (λ l, checklist_id l ≠ checklist_id checklist) checklists) = None.
Proof.
  intros Hlen Hcl. apply next_checklist_None. intros l [Hid Hl]%list_elem_of_filter Hname.
  apply Hid. f_equal.
  induction checklists as [|l' checklists IH]; simpl in *; [done|].
  case_bool_decide as Hn.
  - injection Hcl as ->. rewrite filter_cons_True in Hlen by done. simpl in Hlen.
    apply elem_of_cons in Hl as [->|Hl]; [done|]. exfalso.
    assert (l ∈ filter (λ l, checklist_name l = name) checklists) as Hf
      by (by apply list_elem_of_filter).
    destruct (filter _ checklists); [by apply elem_of_nil in Hf|simpl in Hlen; lia].
  - rewrite filter_cons_False in Hlen by done.
    apply elem_of_cons in Hl as [->|Hl]; [done|]. by apply IH.
Qed.

(** X18: one project card, a grouping of its own and the board in between: a
    second pass over the card as the first pass has left it on the board
    makes no call.  After the first pass the checklist of the project
    holds, as (title, closed) pairs, the list of the project up to the
    order; a card without project has no such checklist.  (The items of
    the checklist have distinct identifiers and the card owns at most one
    checklist of that name.) *)
Theorem project_card_settles (fresh : nat → string) (k : nat)
    (projects : gmap string (list (string * bool))) (card : Card) :
  (∀ l, next_checklist (project_checklist_name card) (card_checklists card) = Some l →
        NoDup (item_id <$> checkItems l)) →
  (length (filter (λ l, checklist_name l = project_checklist_name card)
             (card_checklists card)) ≤ 1)%nat →
  let '(k1, _, calls1) := reconcile_card fresh k projects card in
  let card' := remote_card_after calls1 card in
  (reconcile_card fresh k1 projects card').2 = []
  ∧ match project_label projects card (card_labels card) with
    | Some (_, entries) =>
        ∃ l, next_checklist (project_checklist_name card) (card_checklists card') = Some l
             ∧ entry_of <$> checkItems l ≡ₚ entries
    | None => next_checklist (project_checklist_name card) (card_checklists card') = None
    end.
Proof.
  intros Hnd Hone. unfold reconcile_card.
  rewrite reconcile_labels_project_label.
  destruct (project_label projects card (card_labels card)) as [[a entries]|] eqn:Hpl.
  - destruct (next_checklist (project_checklist_name card) (card_checklists card))
      as [cl|] eqn:Hcl.
    + rewrite (reconcile_label_existing _ _ _ _ _ _ cl) by done. simpl.
      set (r := reconcile_items card (checklist_id cl) (checkItems cl) entries).
      set (n := new_items fresh k (checklist_id cl) r.2).
      assert (Forall on_items (r.1 ++ n.1)) as Hon.
      { apply Forall_app. split; [apply reconcile_items_on_items|apply new_items_on_items]. }
      rewrite (remote_card_after_items _ _ Hon).
      set (card' := set_checklists _ card).
      assert (next_checklist (project_checklist_name card) (card_checklists card')
              = Some (set_checkItems
                        ((settle (checkItems cl) entries).1
                           ++ created fresh k (settle (checkItems cl) entries).2) cl)) as Hcl'.
      { unfold card'. simpl. rewrite next_checklist_fmap by done. rewrite Hcl. simpl.
        do 2 f_equal. subst r n. by apply checklist_after, Hnd. }
      split.
      * rewrite reconcile_labels_project_label.
        rewrite <-(project_label_card_name projects card card') by done.
        change (card_labels card') with (card_labels card). rewrite Hpl.
        rewrite (reconcile_label_existing _ _ _ _ _ _ _ Hcl'). simpl.
        rewrite <-(reconcile_items_card_id card card') by done.
        by rewrite reconcile_items_again.
      * eexists. split; [exact Hcl'|]. simpl.
        rewrite fmap_app, created_entries. apply settle_Permutation.
    + rewrite reconcile_label_missing by done. simpl.
      set (n := new_items fresh (S k) (fresh k) entries).
      unfold remote_card_after. simpl. rewrite bool_decide_eq_true_2 by done.
      fold (remote_card_after n.1
              (set_checklists
                 (card_checklists card
                    ++ [{| checklist_id := fresh k;
                           checklist_name := project_checklist_name card;
                           checkItems := [] |}]) card)).
      rewrite remote_card_after_items by apply new_items_on_items.
      set (card' := set_checklists _ (set_checklists _ card)).
      assert (next_checklist (project_checklist_name card) (card_checklists card')
              = Some {| checklist_id := fresh k;
                        checklist_name := project_checklist_name card;
                        checkItems := created fresh (S k) entries |}) as Hcl'.
      { unfold card'. simpl. rewrite next_checklist_fmap by done.
        rewrite (next_checklist_app_None _ _ _ Hcl) by done. simpl.
        unfold set_checkItems. simpl. do 2 f_equal. subst n.
        by rewrite remote_items_created. }
      split.
      * rewrite reconcile_labels_project_label.
        rewrite <-(project_label_card_name projects card card') by done.
        change (card_labels card') with (card_labels card). rewrite Hpl.
        rewrite (reconcile_label_existing _ _ _ _ _ _ _ Hcl'). simpl.
        by rewrite reconcile_items_created.
      * eexists. split; [exact Hcl'|]. simpl. by rewrite created_entries.
  - unfold orphan_cleanup. fold (project_checklist_name card).
    destruct (next_checklist (project_checklist_name card) (card_checklists card))
      as [cl|] eqn:Hcl.
    + unfold remote_card_after. simpl.
      set (card' := set_checklists _ card).
      assert (next_checklist (project_checklist_name card) (card_checklists card') = None)
        as Hcl' by (by apply only_checklist).
      split; [|done].
      rewrite reconcile_labels_project_label.
      rewrite <-(project_label_card_name projects card card') by done.
      change (card_labels card') with (card_labels card). rewrite Hpl.
      unfold orphan_cleanup. fold (project_checklist_name card').
      change (project_checklist_name card') with (project_checklist_name card).
      by rewrite Hcl'.
    + unfold remote_card_after. simpl. split; [|done].
      rewrite reconcile_labels_project_label, Hpl.
      unfold orphan_cleanup. fold (project_checklist_name card). by rewrite Hcl.
Qed.

(** ** The grouping along the project cards *)

(** Which label the loop stops at depends on the keys of the grouping
    only. *)
Lemma project_label_dom projects projects' card labels :
  dom projects = dom projects' →
  fst <$> project_label projects card labels = fst <$> project_label projects' card labels.
Proof.
  intros Hdom. induction labels as [|a labels IH]; simpl; [done|].
  destruct (decide _); [|done].
  destruct (projects !! label_id a) as [entries|] eqn:Hl.
  - apply (elem_of_dom_2 (D:=gset string)) in Hl. rewrite Hdom in Hl.
    apply elem_of_dom in Hl as [entries' ->]. done.
  - apply (not_elem_of_dom (D:=gset string)) in Hl. rewrite Hdom in Hl.
    apply not_elem_of_dom in Hl as ->. done.
Qed.

Lemma project_label_lookup projects card labels a entries :
  project_label projects card labels = Some (a, entries) →
  projects !! label_id a = Some entries.
Proof.
  induction labels as [|b labels IH]; simpl; [done|].
  destruct (decide _); [|done].
  destruct (projects !! label_id b) eqn:Hb; [|done]. by intros [= <- <-].
Qed.

(** A project card touches the list of its own label and no other. *)
Lemma reconcile_card_other fresh k projects card l :
  label_id <$> (fst <$> project_label projects card (card_labels card)) ≠ Some l →
  (reconcile_card fresh k projects card).1.2 !! l = projects !! l.
Proof.
  intros Hl. unfold reconcile_card. rewrite reconcile_labels_project_label.
  destruct (project_label projects card (card_labels card)) as [[a entries]|]; [|done].
  unfold reconcile_label.
  destruct (match next_checklist _ _ with Some _ => _ | None => _ end) as [[cl k'] c0].
  destruct (reconcile_items _ _ _ _) as [c1 entries'].
  destruct (new_items _ _ _ _) as [c2 k'']. simpl in *.
  apply lookup_insert_ne. by intros <-.
Qed.

Lemma reconciler_other fresh k projects project_cards l :
  (∀ c, c ∈ project_cards →
        label_id <$> (fst <$> project_label projects c (card_labels c)) ≠ Some l) →
  (reconciler fresh k projects project_cards).1.2 !! l = projects !! l.
Proof.
  revert k projects.
  induction project_cards as [|card cards IH]; intros k projects Hno; simpl; [done|].
  pose proof (reconcile_card_other fresh k projects card l) as Hcard.
  pose proof (reconcile_labels_dom fresh k projects card (card_labels card)) as Hdom.
  unfold reconcile_card in *.
  destruct (reconcile_labels _ _ _ _ _) as [[k1 projects1] c1]. simpl in *.
  specialize (IH k1 projects1).
  destruct (reconciler _ _ _ _) as [[k2 projects2] c2]. simpl in *.
  rewrite IH, Hcard; [done|apply Hno; by left|].
  intros c Hc. rewrite (project_label_dom projects1 projects) by done.
  apply Hno. by right.
Qed.

(** X19: the first project card of a label reconciles its checklist against
    the aggregated list of the label: the list is consumed by the project
    cards that stop at the same label, and by no other card. *)
Theorem first_master_sees_aggregate (cfg : Config) (fresh : nat → string)
    (data before after : list Card) (card : Card) (a : Label)
    (entries : list (string * bool)) :
  (aggregate cfg (project_related data)).2 = before ++ card :: after →
  project_label (aggregate cfg (project_related data)).1 card (card_labels card)
  = Some (a, entries) →
  (∀ c, c ∈ before →
        label_id <$> (fst <$> project_label (aggregate cfg (project_related data)).1 c
                                (card_labels c)) ≠ Some (label_id a)) →
  let '(k, projects, _) :=
    reconciler fresh 0 (aggregate cfg (project_related data)).1 before in
  reconcile_card fresh k projects card = reconcile_label fresh k projects card a entries.
Proof.
  intros _ Hpl Hbefore.
  pose proof (reconciler_dom fresh 0 (aggregate cfg (project_related data)).1 before) as Hdom.
  pose proof (reconciler_other fresh 0 _ before (label_id a) Hbefore) as Hsame.
  destruct (reconciler _ _ _ before) as [[k projects] calls]. simpl in *.
  unfold reconcile_card. rewrite reconcile_labels_project_label.
  pose proof (project_label_dom projects _ card (card_labels card) Hdom) as Hfst.
  rewrite Hpl in Hfst. simpl in Hfst.
  destruct (project_label projects card (card_labels card)) as [[a' entries']|] eqn:Hpl';
    [|done].
  injection Hfst as ->.
  apply project_label_lookup in Hpl, Hpl'. by rewrite Hsame, Hpl in Hpl'; injection Hpl' as ->.
Qed.

(** * Further properties of the script *)

(** ** The pattern and the day count *)

(** X1: [re.findall] returns one match for every dollar of the title,
    each a dollar followed by a run of decimal digits, of whatever
    script: in "Buy $٣" the match is "$٣". *)
Theorem findall_one_match_per_dollar (s : string) :
  length (findall s) = count_dollars s
  ∧ Forall (λ m, ∃ ds, m = String "$" ds ∧ all_digits ds = true) (findall s)
  ∧ findall "Buy $٣" = ["$٣"%string].
Proof.
  split_and!; [apply length_findall|apply findall_shape|reflexivity].
Qed.

(** X2: [re.sub] with the empty replacement takes away the matches and
    nothing else: no dollar is left, the bytes of the title are those of
    the stripped title and of the matches, a title without dollar comes
    back as it is, and stripping twice is stripping once; a digit of
    another script goes with its dollar, "Buy $٣" becomes "Buy ". *)
Theorem sub_strips_the_matches (s : string) :
  has_dollar (sub_empty s) = false
  ∧ String.length s
    = (String.length (sub_empty s) + sum_list (String.length <$> findall s))%nat
  ∧ (has_dollar s = false → sub_empty s = s)
  ∧ sub_empty (sub_empty s) = sub_empty s
  ∧ sub_empty "Buy $٣" = "Buy "%string.
Proof.
  split_and!.
  - apply sub_empty_no_dollar.
  - apply sub_empty_length.
  - apply sub_empty_id.
  - apply sub_empty_id, sub_empty_no_dollar.
  - reflexivity.
Qed.

(** X3: on a run of decimal digits, of whatever script, [int] reads a
    decimal number: the value of two runs put together is the value of
    the first, shifted by the number of digits of the second, plus the
    value of the second; zeros in front do not count, "007" is 7, and
    "٣" is 3. *)
Theorem int_is_decimal (s1 s2 : string) :
  all_digits s1 = true → s1 ≠ EmptyString →
  all_digits s2 = true → s2 ≠ EmptyString →
  ∃ v1 v2,
    int s1 = inl v1 ∧ int s2 = inl v2 ∧ 0 <= v1 ∧ 0 <= v2
    ∧ int (s1 +:+ s2) = inl (v1 * 10 ^ Z.of_nat (length (chars s2)) + v2)
    ∧ int ("0" +:+ s2) = inl v2
    ∧ int "007" = inl 7
    ∧ int "٣" = inl 3.
Proof.
  intros H1 Hn1 H2 Hn2. exists (digits_value s1), (digits_value s2).
  assert (∀ s, all_digits s = true →
            all_digits (s +:+ s2) = true ∧ s +:+ s2 ≠ EmptyString
            ∧ digits_value (s +:+ s2)
              = digits_value s * 10 ^ Z.of_nat (length (chars s2)) + digits_value s2)
    as Happ.
  { intros s Hs. destruct (all_digits_append s s2 Hs H2) as [E Hall].
    split_and!; [done| |].
    - destruct s; [done|discriminate].
    - unfold digits_value. by rewrite E, value_from_app, value_from_shift. }
  split_and!.
  - by apply int_digits.
  - by apply int_digits.
  - by apply value_from_nonneg.
  - by apply value_from_nonneg.
  - destruct (Happ s1 H1) as (Hall & Hne & <-). by apply int_digits.
  - destruct (Happ "0"%string eq_refl) as (Hall & Hne & E).
    rewrite int_digits, E by done. f_equal; lia.
  - reflexivity.
  - reflexivity.
Qed.

Lemma int_is_decimal_witness :
  ∃ v1 v2,
    int "4" = inl v1 ∧ int "٢" = inl v2
    ∧ int "4٢" = inl (v1 * 10 ^ 1 + v2) ∧ int "0٢" = inl v2.
Proof.
  destruct (int_is_decimal "4" "٢") as (v1 & v2 & E1 & E2 & _ & _ & E & E0 & _);
    [reflexivity|discriminate|reflexivity|discriminate|].
  exists v1, v2. split_and!; [exact E1|exact E2|exact E|exact E0].
Defined.

(** ** The dollar handler *)

(** X4: the handler raises exactly when the title holds a directive whose
    day count leads beyond the last date of the calendar, and what it
    raises is [OverflowError]: [int] never refuses the digits of a
    match, and a title without dollar never raises. *)
Theorem dollar_handler_raises (cfg : Config) (now : datetime) (card : Card) (e : exn) :
  0 <= now →
  handle_dollar_snoozing cfg now card = inr e
  ↔ e = OverflowError
    ∧ ∃ days, directive_days (card_name card) = Some days
              ∧ datetime_max < now + days * day_us.
Proof.
  intros Hnow. split.
  - intros Hraise. destruct (directive_days (card_name card)) as [days|] eqn:Hdays.
    + destruct (decide (now + days * day_us <= datetime_max)) as [Hin|Hout].
      { by rewrite (handle_dollar_ok cfg now card days) in Hraise. }
      rewrite (handle_dollar_overflow cfg now card days) in Hraise by (done || lia).
      injection Hraise as <-. split; [done|]. exists days. split; [done|lia].
    + apply directive_days_None in Hdays.
      by rewrite handle_dollar_none in Hraise.
  - intros (-> & days & Hdays & Hout). by eapply handle_dollar_overflow.
Qed.

Lemma dollar_handler_raises_witness :
  handle_dollar_snoozing Samples.config Samples.new_year Samples.pay_rent
  = inr OverflowError.
Proof.
  apply (proj2 (dollar_handler_raises Samples.config Samples.new_year
                  Samples.pay_rent OverflowError ltac:(by vm_compute))).
  split; [reflexivity|]. exists 9999999. split; [reflexivity|by vm_compute].
Defined.

(** X5: the handler fires once: the card it leaves has no directive in
    its title, and a second call on it, at any time, makes no call and
    leaves it as it is. *)
Theorem dollar_handler_fires_once (cfg : Config) (now now' : datetime) (card : Card)
    (days : Z) :
  directive_days (card_name card) = Some days →
  0 <= now → now + days * day_us <= datetime_max →
  ∃ card' calls,
    handle_dollar_snoozing cfg now card = inl (card', calls)
    ∧ has_dollar (card_name card') = false
    ∧ handle_dollar_snoozing cfg now' card' = inl (card', []).
Proof.
  intros Hdays Hnow Hmax. eexists _, _.
  split; [by apply handle_dollar_ok|]. simpl.
  split; [apply sub_empty_no_dollar|].
  apply handle_dollar_none. simpl. apply sub_empty_no_dollar.
Qed.

Lemma dollar_handler_fires_once_witness :
  ∃ card' calls,
    handle_dollar_snoozing Samples.config Samples.new_year Samples.buy_bread
    = inl (card', calls)
    ∧ has_dollar (card_name card') = false
    ∧ handle_dollar_snoozing Samples.config (Samples.new_year + Samples.hour) card'
      = inl (card', []).
Proof.
  apply (dollar_handler_fires_once Samples.config Samples.new_year
           (Samples.new_year + Samples.hour) Samples.buy_bread 3).
  - reflexivity.
  - by vm_compute.
  - by vm_compute.
Defined.

(** ** The body of the first loop *)

Lemma integrity_check_passes cfg card :
  card_closed card = false ∨ LABEL_SNOOZE cfg ∉ card_idLabels card ∨ card_due card ≠ None →
  integrity_check cfg card = (true, None).
Proof.
  intros H. pose proof (integrity_check_sound cfg card) as Hs.
  unfold integrity_check in *.
  destruct (_ && _); [|done]. simpl in Hs.
  destruct (proj1 Hs eq_refl) as (Hc & Hl & Hd).
  destruct H as [H|[H|H]]; congruence.
Qed.

Lemma snooze_card_skips cfg now card :
  LABEL_SNOOZE cfg ∉ card_idLabels card ∨ card_due card = None ∨ card_closed card = true
  ∨ (∃ due, card_due card = Some due ∧ due < now) →
  snooze_card cfg now card = (card, []).
Proof.
  unfold snooze_card, carries. intros H.
  destruct (card_due card) as [due|]; [|done].
  case_bool_decide as Hl; simpl; [|done].
  destruct (card_closed card); [done|].
  case_bool_decide as Hnow; [done|].
  destruct H as [H|[H|[H|(due' & [= <-] & H)]]]; try done. lia.
Qed.

Lemma snooze_card_fires cfg now card due :
  LABEL_SNOOZE cfg ∈ card_idLabels card → card_due card = Some due →
  card_closed card = false → now <= due →
  snooze_card cfg now card
  = (set_closed true card,
     [cards_update (card_id card)
        {| upd_name := None; upd_desc := None; upd_closed := Some true;
           upd_due := None; upd_idLabels := None; upd_idList := None |}]).
Proof.
  intros Hl Hdue Hopen Hnow. unfold snooze_card, carries.
  rewrite Hdue, Hopen, bool_decide_eq_true_2 by done. simpl.
  by rewrite bool_decide_eq_false_2 by lia.
Qed.

Lemma wake_card_fires cfg now card due :
  LABEL_SNOOZE cfg ∈ card_idLabels card → card_due card = Some due → due <= now →
  wake_card cfg now card
  = (set_due None (set_closed false card),
     [cards_update (card_id card)
        {| upd_name := None; upd_desc := None; upd_closed := Some false;
           upd_due := Some None; upd_idLabels := None; upd_idList := None |}]).
Proof.
  intros Hl Hdue Hnow. unfold wake_card, carries.
  rewrite Hdue, bool_decide_eq_true_2 by done. simpl.
  by rewrite bool_decide_eq_false_2 by lia.
Qed.

Lemma wake_card_skips cfg now card :
  LABEL_SNOOZE cfg ∉ card_idLabels card ∨ card_due card = None
  ∨ (∃ due, card_due card = Some due ∧ now < due) →
  wake_card cfg now card = (card, []).
Proof.
  unfold wake_card, carries. intros H.
  destruct (card_due card) as [due|]; [|done].
  case_bool_decide as Hl; simpl; [|done].
  case_bool_decide as Hnow; [done|].
  destruct H as [H|[H|(due' & [= <-] & H)]]; first [done|lia].
Qed.

Lemma process_card_skips cfg now card :
  has_dollar (card_name card) = false →
  LABEL_SNOOZE cfg ∉ card_idLabels card
  ∨ (card_due card = None ∧ card_closed card = false) →
  process_card cfg now card = inl (card, []).
Proof.
  intros Hd H. unfold process_card.
  rewrite integrity_check_passes by (destruct H as [H|[_ H]]; auto). simpl.
  rewrite handle_dollar_none by done.
  rewrite snooze_card_skips by (destruct H as [H|[H _]]; auto).
  by rewrite wake_card_skips by (destruct H as [H|[H _]]; auto).
Qed.

(** X6: a card without directive in its title is left alone, without a
    call, when it does not carry the snooze label, and also when it is
    open and has no due date (a card that has been woken). *)
Theorem process_card_idle (cfg : Config) (now : utc_readings) (card : Card) :
  has_dollar (card_name card) = false →
  LABEL_SNOOZE cfg ∉ card_idLabels card
  ∨ (card_due card = None ∧ card_closed card = false) →
  process_card cfg now card = inl (card, []).
Proof. apply process_card_skips. Qed.

Lemma process_card_idle_witness :
  process_card Samples.config (Samples.readings Samples.new_year) Samples.unmarked
  = inl (Samples.unmarked, []).
Proof.
  apply process_card_idle; [reflexivity|]. left. apply not_elem_of_nil.
Defined.

(** X7: an archived card with a due date that lies behind the last
    reading of the clock, and without directive in its title, is left
    alone: a snoozed card sleeps until its date. *)
Theorem process_card_sleeping (cfg : Config) (now : utc_readings) (card : Card)
    (due : datetime) :
  has_dollar (card_name card) = false →
  card_closed card = true →
  card_due card = Some due →
  at_wake now < due →
  process_card cfg now card = inl (card, []).
Proof.
  intros Hd Hclosed Hdue Hnow. unfold process_card.
  rewrite integrity_check_passes by (right; right; congruence). simpl.
  rewrite handle_dollar_none by done.
  rewrite snooze_card_skips by auto.
  by rewrite wake_card_skips by eauto.
Qed.

Lemma process_card_sleeping_witness :
  process_card Samples.config (Samples.readings Samples.new_year) Samples.sleeping
  = inl (Samples.sleeping, []).
Proof.
  apply (process_card_sleeping Samples.config _ Samples.sleeping
           (Samples.new_year + Samples.hour)).
  - reflexivity.
  - reflexivity.
  - reflexivity.
  - by vm_compute.
Defined.

(** X8: an open card with a directive is snoozed and archived in the same
    iteration and not woken, as long as the clock has not reached the new
    due date when the snooze and the wake step read it: two calls, the
    update of the handler and the update that closes the card. *)
Theorem fresh_directive_sleeps (cfg : Config) (now : utc_readings) (card : Card)
    (days : Z) :
  card_closed card = false →
  directive_days (card_name card) = Some days →
  0 <= at_dollar now →
  at_dollar now + days * day_us <= datetime_max →
  at_snooze now <= at_dollar now + days * day_us →
  at_wake now < at_dollar now + days * day_us →
  process_card cfg now card
  = inl (set_closed true
           (snoozed_for cfg (at_dollar now) days (sub_empty (card_name card)) card).1,
         (snoozed_for cfg (at_dollar now) days (sub_empty (card_name card)) card).2
           ++ [cards_update (card_id card)
                 {| upd_name := None; upd_desc := None; upd_closed := Some true;
                    upd_due := None; upd_idLabels := None; upd_idList := None |}]).
Proof.
  intros Hopen Hdays Hnow Hmax Hs Hw. unfold process_card.
  rewrite integrity_check_passes by auto. simpl.
  rewrite (handle_dollar_ok cfg _ card days) by done.
  unfold snoozed_for.
  set (card1 := set_idLabels _ _).
  assert (LABEL_SNOOZE cfg ∈ card_idLabels card1) as Hl.
  { simpl. apply elem_of_app. right. by left. }
  rewrite (snooze_card_fires cfg _ card1 (at_dollar now + days * day_us)) by done.
  rewrite wake_card_skips; [done|]. right. right. eexists. split; [reflexivity|done].
Qed.

Lemma fresh_directive_sleeps_witness :
  process_card Samples.config (Samples.readings Samples.new_year) Samples.buy_milk
  = inl (set_closed true
           (snoozed_for Samples.config Samples.new_year 3 "Buy milk " Samples.buy_milk).1,
         (snoozed_for Samples.config Samples.new_year 3 "Buy milk " Samples.buy_milk).2
           ++ [cards_update "c1"
                 {| upd_name := None; upd_desc := None; upd_closed := Some true;
                    upd_due := None; upd_idLabels := None; upd_idList := None |}]).
Proof.
  apply (fresh_directive_sleeps Samples.config (Samples.readings Samples.new_year)
           Samples.buy_milk 3).
  - reflexivity.
  - reflexivity.
  - by vm_compute.
  - by vm_compute.
  - by vm_compute.
  - by vm_compute.
Defined.

(** X9: when the due date a directive asks for is already behind the
    clock at the snooze step (a directive of zero days), the card is not
    archived; the wake step clears the fresh due date at once and the
    card ends open, with the snooze label and without a date: two calls,
    the update of the handler and the update that reopens. *)
Theorem elapsed_directive_wakes (cfg : Config) (now : utc_readings) (card : Card)
    (days : Z) :
  (integrity_check cfg card).1 = true →
  directive_days (card_name card) = Some days →
  0 <= at_dollar now →
  at_dollar now + days * day_us <= datetime_max →
  at_dollar now + days * day_us < at_snooze now →
  at_dollar now + days * day_us <= at_wake now →
  process_card cfg now card
  = inl (set_due None (set_closed false
           (snoozed_for cfg (at_dollar now) days (sub_empty (card_name card)) card).1),
         (snoozed_for cfg (at_dollar now) days (sub_empty (card_name card)) card).2
           ++ [cards_update (card_id card)
                 {| upd_name := None; upd_desc := None; upd_closed := Some false;
                    upd_due := Some None; upd_idLabels := None; upd_idList := None |}]).
Proof.
  intros Hok Hdays Hnow Hmax Hs Hw. unfold process_card.
  destruct (integrity_check cfg card) as [ok reason]. simpl in Hok. subst ok. simpl.
  rewrite (handle_dollar_ok cfg _ card days) by done.
  unfold snoozed_for.
  set (card1 := set_idLabels _ _).
  assert (LABEL_SNOOZE cfg ∈ card_idLabels card1) as Hl.
  { simpl. apply elem_of_app. right. by left. }
  rewrite snooze_card_skips by (right; right; right; eexists; split; [reflexivity|done]).
  by rewrite (wake_card_fires cfg _ card1 (at_dollar now + days * day_us)) by done.
Qed.

Lemma elapsed_directive_wakes_witness :
  process_card Samples.config (Samples.readings Samples.new_year) Samples.ping
  = inl (set_due None (set_closed false
           (snoozed_for Samples.config Samples.new_year 0 "Ping " Samples.ping).1),
         (snoozed_for Samples.config Samples.new_year 0 "Ping " Samples.ping).2
           ++ [cards_update "c9"
                 {| upd_name := None; upd_desc := None; upd_closed := Some false;
                    upd_due := Some None; upd_idLabels := None; upd_idList := None |}]).
Proof.
  apply (elapsed_directive_wakes Samples.config (Samples.readings Samples.new_year)
           Samples.ping 0).
  - reflexivity.
  - reflexivity.
  - by vm_compute.
  - by vm_compute.
  - by vm_compute.
  - by vm_compute.
Defined.

(** X10: when the due date of an open snoozed card without directive in
    its title (no dollar, so that the handler leaves the date alone)
    falls between the reading of the snooze step and the reading of the
    wake step (both comparisons admit equality), the card is archived and
    reopened in the same iteration: two calls, and the card ends open
    without a date. *)
Theorem due_between_the_readings (cfg : Config) (now : utc_readings) (card : Card)
    (due : datetime) :
  has_dollar (card_name card) = false →
  LABEL_SNOOZE cfg ∈ card_idLabels card →
  card_closed card = false →
  card_due card = Some due →
  at_snooze now <= due <= at_wake now →
  process_card cfg now card
  = inl (set_due None (set_closed false card),
         [cards_update (card_id card)
            {| upd_name := None; upd_desc := None; upd_closed := Some true;
               upd_due := None; upd_idLabels := None; upd_idList := None |};
          cards_update (card_id card)
            {| upd_name := None; upd_desc := None; upd_closed := Some false;
               upd_due := Some None; upd_idLabels := None; upd_idList := None |}]).
Proof.
  intros Hd Hl Hopen Hdue [Hs Hw]. unfold process_card.
  rewrite integrity_check_passes by auto. simpl.
  rewrite handle_dollar_none by done.
  rewrite (snooze_card_fires cfg _ card due) by done.
  by rewrite (wake_card_fires cfg _ (set_closed true card) due) by done.
Qed.

Lemma due_between_the_readings_witness :
  (process_card Samples.config
     {| at_dollar := Samples.new_year; at_snooze := Samples.new_year + Samples.hour;
        at_wake := Samples.new_year + Samples.hour |}
     Samples.napping)
  = inl (set_due None (set_closed false Samples.napping),
         [cards_update "c4"
            {| upd_name := None; upd_desc := None; upd_closed := Some true;
               upd_due := None; upd_idLabels := None; upd_idList := None |};
          cards_update "c4"
            {| upd_name := None; upd_desc := None; upd_closed := Some false;
               upd_due := Some None; upd_idLabels := None; upd_idList := None |}]).
Proof.
  apply (due_between_the_readings Samples.config _ Samples.napping
           (Samples.new_year + Samples.hour)).
  - reflexivity.
  - by apply list_elem_of_singleton.
  - reflexivity.
  - reflexivity.
  - by vm_compute.
Defined.

Lemma touches_only_state_refl card : touches_only_state card (card, []).
Proof. unfold touches_only_state. simpl. split_and!; try done. lia. Qed.

Lemma touches_only_state_update card card' u :
  card_id card' = card_id card → card_desc card' = card_desc card →
  card_labels card' = card_labels card → card_idList card' = card_idList card →
  card_checklists card' = card_checklists card → upd_idList u = None →
  touches_only_state card (card', [cards_update (card_id card) u]).
Proof.
  intros. unfold touches_only_state. simpl. split_and!; try done.
  constructor; [|done]. eauto.
Qed.

Lemma handle_dollar_frame cfg now card r :
  handle_dollar_snoozing cfg now card = inl r → touches_only_state card r.
Proof.
  unfold handle_dollar_snoozing.
  destruct (last _) as [m|]; [|intros [= <-]; apply touches_only_state_refl].
  cbv zeta. destruct (if bool_decide _ then _ else _) as [delay|e]; [|done].
  destruct (_ ≫= _) as [t|]; [|done].
  intros [= <-]. by apply touches_only_state_update.
Qed.

Lemma snooze_card_frame cfg now card : touches_only_state card (snooze_card cfg now card).
Proof.
  unfold snooze_card.
  destruct (card_due card); [|apply touches_only_state_refl].
  destruct (negb _); [apply touches_only_state_refl|].
  destruct (card_closed card); [apply touches_only_state_refl|].
  case_bool_decide; [apply touches_only_state_refl|].
  by apply touches_only_state_update.
Qed.

Lemma wake_card_frame cfg now card : touches_only_state card (wake_card cfg now card).
Proof.
  unfold wake_card.
  destruct (card_due card); [|apply touches_only_state_refl].
  destruct (negb _); [apply touches_only_state_refl|].
  case_bool_decide; [apply touches_only_state_refl|].
  by apply touches_only_state_update.
Qed.

(** X11: whatever the body of the first loop does to a card, it keeps the
    identifier, the description, the labels as objects, the list and the
    checklists of the card; it makes at most three calls, each an update
    of this very card that does not send a list. *)
Theorem process_card_frame (cfg : Config) (now : utc_readings) (card card' : Card)
    (calls : list call) :
  process_card cfg now card = inl (card', calls) →
  card_id card' = card_id card
  ∧ card_desc card' = card_desc card
  ∧ card_labels card' = card_labels card
  ∧ card_idList card' = card_idList card
  ∧ card_checklists card' = card_checklists card
  ∧ Forall (λ c, ∃ u, c = cards_update (card_id card) u ∧ upd_idList u = None) calls
  ∧ (length calls ≤ 3)%nat.
Proof.
  unfold process_card.
  destruct (integrity_check cfg card) as [[] reason]; simpl.
  - destruct (handle_dollar_snoozing cfg (at_dollar now) card) as [[c1 l1]|e] eqn:H1;
      [|done].
    apply handle_dollar_frame in H1 as (A1 & B1 & C1 & D1 & E1 & F1 & G1).
    pose proof (snooze_card_frame cfg (at_snooze now) c1) as (A2 & B2 & C2 & D2 & E2 & F2 & G2).
    destruct (snooze_card cfg (at_snooze now) c1) as [c2 l2].
    pose proof (wake_card_frame cfg (at_wake now) c2) as (A3 & B3 & C3 & D3 & E3 & F3 & G3).
    destruct (wake_card cfg (at_wake now) c2) as [c3 l3].
    simpl in *. intros [= <- <-].
    split_and!; try congruence.
    + rewrite A2, A1 in F3. rewrite A1 in F2. by rewrite !Forall_app.
    + rewrite !length_app. lia.
  - intros [= <- <-]. split_and!; try done; [|simpl; lia].
    constructor; [|done]. eauto.
Qed.

Lemma process_card_frame_witness :
  ∃ card' calls,
    process_card Samples.config (Samples.readings Samples.new_year) Samples.buy_milk
    = inl (card', calls)
    ∧ card_id card' = "c1" ∧ (length calls ≤ 3)%nat.
Proof.
  assert (∃ card' calls,
            process_card Samples.config (Samples.readings Samples.new_year)
              Samples.buy_milk = inl (card', calls)) as (card' & calls & H).
  { eexists _, _. by vm_compute. }
  exists card', calls. split; [exact H|].
  destruct (process_card_frame _ _ _ _ _ H) as (H1 & _ & _ & _ & _ & _ & H2).
  split; [exact H1|exact H2].
Defined.

(** ** The first loop and the run *)

(** X12: the first loop keeps the number of cards in memory and leaves
    every card alone that the working set does not refer to. *)
Theorem first_loop_frame (cfg : Config) (clock : nat → utc_readings) (n : nat)
    (cards : list nat) (data : list Card) :
  length (first_loop cfg clock n cards data).1.1 = length data
  ∧ ∀ j, j ∉ cards → (first_loop cfg clock n cards data).1.1 !! j = data !! j.
Proof.
  revert n data. induction cards as [|i cards IH]; intros n data; simpl; [done|].
  destruct (data !! i) as [card|] eqn:Hcard.
  - destruct (process_card cfg (clock n) card) as [[card' calls]|e]; [|done].
    destruct (IH (S n) (<[i := card']> data)) as [Hlen Hframe].
    destruct (first_loop cfg clock (S n) cards (<[i := card']> data)) as [[data' calls'] e].
    simpl in *. split; [by rewrite Hlen, length_insert|].
    intros j [Hji Hj]%not_elem_of_cons.
    by rewrite Hframe, list_lookup_insert_ne by done.
  - destruct (IH (S n) data) as [Hlen Hframe]. split; [done|].
    intros j [Hji Hj]%not_elem_of_cons. by apply Hframe.
Qed.

Lemma first_loop_raise cfg clock n pre i post data card e :
  NoDup (pre ++ i :: post) →
  (∀ m j c, pre !! m = Some j → data !! j = Some c →
            ∃ r, process_card cfg (clock (n + m)%nat) c = inl r) →
  data !! i = Some card →
  process_card cfg (clock (n + length pre)%nat) card = inr e →
  first_loop cfg clock n (pre ++ i :: post) data
  = ((first_loop cfg clock n pre data).1.1, (first_loop cfg clock n pre data).1.2, Some e).
Proof.
  revert n data. induction pre as [|j pre IH]; intros n data Hnd Hpre Hcard Hraise; simpl.
  { rewrite Nat.add_0_r in Hraise. by rewrite Hcard, Hraise. }
  apply NoDup_cons in Hnd as [Hj Hnd].
  assert (j ≠ i) as Hji.
  { intros ->. apply Hj, elem_of_app. right. by left. }
  assert (∀ m, (n + S m = S n + m)%nat) as Hshift by lia.
  destruct (data !! j) as [c|] eqn:Hc.
  - destruct (Hpre 0%nat j c eq_refl Hc) as [[c' calls] Hok].
    rewrite Nat.add_0_r in Hok. rewrite Hok.
    rewrite (IH (S n) (<[j := c']> data)); [| done | | |].
    + by destruct (first_loop cfg clock (S n) pre (<[j := c']> data)) as [[d l] o].
    + intros m j' c1 Hm Hc1. rewrite <-Hshift. apply (Hpre (S m) j' c1); [done|].
      rewrite list_lookup_insert_ne in Hc1; [done|].
      intros ->. apply Hj, elem_of_app. left. by eapply list_elem_of_lookup_2.
    + by rewrite list_lookup_insert_ne.
    + by rewrite <-Hshift.
  - rewrite (IH (S n) data); [done..| |done|by rewrite <-Hshift].
    intros m j' c1 Hm Hc1. rewrite <-Hshift. by apply (Hpre (S m) j' c1).
Qed.

(** X13: an exception in the body of the first loop ends the run: the
    calls of the run are the calls made for the cards in front of the one
    that raises; the cards behind it are not processed and neither the
    tomorrow scheduling nor the project stage nor the housekeeping
    happens. *)
Theorem run_stops_at_exception (cfg : Config) (fresh : nat → string) (clock : Clock)
    (data : list Card) (pre : list nat) (i : nat) (post : list nat) (card : Card)
    (e : exn) :
  working_set cfg data = pre ++ i :: post →
  (∀ m j c, pre !! m = Some j → data !! j = Some c →
            ∃ r, process_card cfg (utcnow clock m) c = inl r) →
  data !! i = Some card →
  process_card cfg (utcnow clock (length pre)) card = inr e →
  main cfg fresh clock data
  = ((first_loop cfg (utcnow clock) 0 pre data).1.2, Some e).
Proof.
  intros Hws Hpre Hcard Hraise. unfold main. rewrite Hws.
  rewrite (first_loop_raise cfg (utcnow clock) 0 pre i post data card e); try done.
  rewrite <-Hws. apply positions_NoDup.
Qed.

Lemma run_stops_at_exception_witness :
  main Samples.config Samples.fresh Samples.clock Samples.overflow_board
  = ([], Some OverflowError).
Proof.
  refine (run_stops_at_exception Samples.config Samples.fresh Samples.clock
            Samples.overflow_board [0%nat] 1%nat [2%nat] Samples.pay_rent
            OverflowError _ _ _ _).
  - by vm_compute.
  - intros [|m] j c Hm Hc; [|done]. injection Hm as <-. injection Hc as <-.
    eexists. by vm_compute.
  - reflexivity.
  - by vm_compute.
Defined.

Lemma in_working_set_spec cfg c :
  in_working_set cfg c = true
  ↔ card_closed c = false ∨ ∃ l, l ∈ card_idLabels c ∧ l ∈ PROGRESS_LABELS cfg.
Proof.
  unfold in_working_set. rewrite orb_true_iff, negb_true_iff, bool_decide_eq_true.
  assert ((list_to_set (card_idLabels c) : gset string) ∩ PROGRESS_LABELS cfg ≠ ∅
          ↔ ∃ l, l ∈ card_idLabels c ∧ l ∈ PROGRESS_LABELS cfg) as ->; [|done].
  split.
  - intros (l & [Hl Hp]%elem_of_intersection)%set_choose_L.
    exists l. by rewrite elem_of_list_to_set in Hl.
  - intros (l & Hl & Hp) Hempty.
    assert (l ∈ (list_to_set (card_idLabels c) : gset string) ∩ PROGRESS_LABELS cfg) as Hin.
    { apply elem_of_intersection. by rewrite elem_of_list_to_set. }
    rewrite Hempty in Hin. by apply not_elem_of_empty in Hin.
Qed.

(** X14: the working set refers once to every card of the board that is
    open or carries one of the progress labels, and to no other card. *)
Theorem working_set_refs (cfg : Config) (data : list Card) :
  NoDup (working_set cfg data)
  ∧ ∀ i, i ∈ working_set cfg data
         ↔ ∃ c, data !! i = Some c
                ∧ (card_closed c = false
                   ∨ ∃ l, l ∈ card_idLabels c ∧ l ∈ PROGRESS_LABELS cfg).
Proof.
  split; [apply positions_NoDup|].
  intros i. rewrite working_set_spec.
  split; intros (c & Hc & Hin); exists c; (split; [done|]); by apply in_working_set_spec.
Qed.

(** ** Tomorrow scheduling, again *)

Lemma py_remove_NoDup {A} `{EqDecision A} (x : A) (l : list A) :
  NoDup l → x ∉ py_remove x l.
Proof.
  induction 1 as [|y l Hy Hnd IH]; simpl; [apply not_elem_of_nil|].
  destruct (decide (x = y)) as [->|Hne]; [done|].
  by apply not_elem_of_cons.
Qed.

Lemma for_cards_idle body cards data :
  (∀ i c, i ∈ cards → data !! i = Some c → body c = (c, [])) →
  for_cards body cards data = (data, []).
Proof.
  induction cards as [|i cards IH]; intros Hidle; simpl; [done|].
  assert (for_cards body cards data = (data, [])) as Hrest.
  { apply IH. intros j c Hj. apply Hidle. by right. }
  destruct (data !! i) as [c|] eqn:Hc; [|done].
  rewrite (Hidle i c) by (done || by left).
  by rewrite list_insert_id, Hrest.
Qed.

(** X15: after a pass inside the window no card of the working set
    carries the tomorrow label any more (the labels of a card being
    distinct), and a second pass over the cards in memory, at any time,
    makes no call and changes nothing. *)
Theorem tomorrow_scheduling_twice (cfg : Config) (current_time later : Z)
    (cards : list nat) (data : list Card) :
  NoDup cards →
  (∀ i c, data !! i = Some c → NoDup (card_idLabels c)) →
  in_nightly_window current_time = true →
  (∀ i c, i ∈ cards →
          (tomorrow_scheduling cfg current_time cards data).1 !! i = Some c →
          LABEL_TOMORROW cfg ∉ card_idLabels c)
  ∧ tomorrow_scheduling cfg later cards (tomorrow_scheduling cfg current_time cards data).1
    = ((tomorrow_scheduling cfg current_time cards data).1, []).
Proof.
  intros Hnd Hlabels Hin.
  assert (∀ i c, i ∈ cards →
            (tomorrow_scheduling cfg current_time cards data).1 !! i = Some c →
            LABEL_TOMORROW cfg ∉ card_idLabels c) as Hgone.
  { intros i c Hi. unfold tomorrow_scheduling. rewrite Hin.
    rewrite for_cards_lookup, decide_True by done.
    destruct (data !! i) as [c0|] eqn:Hc0; [|done]. simpl. intros [= <-].
    unfold schedule_tomorrow, carries. case_bool_decide as Hl; simpl; [|done].
    apply py_remove_NoDup. by eapply Hlabels. }
  split; [done|].
  unfold tomorrow_scheduling at 1. destruct (in_nightly_window later); [|done].
  apply for_cards_idle. intros i c Hi Hc.
  unfold schedule_tomorrow, carries.
  by rewrite bool_decide_eq_false_2 by (by eapply Hgone).
Qed.

Lemma tomorrow_scheduling_twice_witness :
  tomorrow_scheduling Samples.config (time 1 45 0) [0%nat]
    (tomorrow_scheduling Samples.config (time 1 30 0) [0%nat] [Samples.errand]).1
  = ((tomorrow_scheduling Samples.config (time 1 30 0) [0%nat] [Samples.errand]).1, []).
Proof.
  refine (proj2 (tomorrow_scheduling_twice Samples.config (time 1 30 0) (time 1 45 0)
                   [0%nat] [Samples.errand] _ _ _)).
  - apply NoDup_singleton.
  - intros [|i] c Hc; [|done]. injection Hc as <-. apply NoDup_singleton.
  - reflexivity.
Defined.

(** ** The grouping *)

(** X16: a label has a list in the grouping exactly when some card
    contributes to it, and no list of the grouping is empty; the list
    holds, card by card in the order of the board, one pair for every
    time the card has the label. *)
Theorem grouping_lists (cfg : Config) (data : list Card) (l : string) :
  (is_Some ((aggregate cfg (project_related data)).1 !! l)
   ↔ ∃ c, c ∈ data ∧ contributes cfg l c)
  ∧ ∀ entries, (aggregate cfg (project_related data)).1 !! l = Some entries →
               entries ≠ [] ∧ entries = flat_map (card_entries cfg l) data.
Proof.
  split.
  - rewrite <-not_eq_None_Some, aggregate_lookup_None. split.
    + intros Hno. destruct (decide (Exists (contributes cfg l) data)) as [Hex|Hex].
      * by apply Exists_exists in Hex.
      * exfalso. apply Hno. intros c Hc Hcon. apply Hex, Exists_exists. eauto.
    + intros (c & Hc & Hcon) Hno. by apply (Hno c).
  - intros entries. unfold aggregate.
    rewrite aggregate_from_lookup, flat_map_project_related, lookup_empty. simpl.
    destruct (flat_map (card_entries cfg l) data) as [|e es]; [done|].
    by intros [= <-].
Qed.

(** ** The reconciler, again *)

Lemma checklist_converges_witness :
  let '(calls1, rest) :=
    reconcile_items Samples.garden_master "cl1" Samples.garden_items
      Samples.garden_entries in
  let '(calls2, _) := new_items Samples.fresh 0 "cl1" rest in
  let items' := remote_items_after "m1" "cl1" (calls1 ++ calls2) Samples.garden_items in
  entry_of <$> items' ≡ₚ Samples.garden_entries
  ∧ reconcile_items Samples.garden_master "cl1" items' Samples.garden_entries = ([], []).
Proof.
  assert (NoDup (item_id <$> Samples.garden_items)) as Hnd.
  { refine (bool_decide_unpack _ _). by vm_compute. }
  pose proof (checklist_converges Samples.garden_master "cl1" Samples.fresh 0
                Samples.garden_items Samples.garden_entries Hnd) as H.
  destruct (reconcile_items Samples.garden_master "cl1" Samples.garden_items
              Samples.garden_entries) as [calls1 rest].
  destruct (new_items Samples.fresh 0 "cl1" rest) as [calls2 k'].
  destruct H as (_ & H2 & H3 & _). split; [exact H2|exact H3].
Defined.

Lemma project_card_settles_witness :
  let '(k1, _, calls1) :=
    reconcile_card Samples.fresh 0 Samples.garden_projects Samples.orphan_master in
  (reconcile_card Samples.fresh k1 Samples.garden_projects
     (remote_card_after calls1 Samples.orphan_master)).2 = [].
Proof.
  pose proof (project_card_settles Samples.fresh 0 Samples.garden_projects
                Samples.orphan_master) as H.
  destruct (reconcile_card Samples.fresh 0 Samples.garden_projects Samples.orphan_master)
    as [[k1 projects1] calls1].
  apply H.
  - intros l Hl. vm_compute in Hl. injection Hl as <-. apply NoDup_singleton.
  - vm_compute. lia.
Defined.

Lemma first_master_sees_aggregate_witness :
  reconcile_card Samples.fresh 0
    (aggregate Samples.config (project_related Samples.mirrored_twin_board)).1
    (set_checklists [Samples.garden_checklist] Samples.garden_master)
  = reconcile_label Samples.fresh 0
      (aggregate Samples.config (project_related Samples.mirrored_twin_board)).1
      (set_checklists [Samples.garden_checklist] Samples.garden_master)
      Samples.garden [("Dig beds", false)].
Proof.
  refine (first_master_sees_aggregate Samples.config Samples.fresh
            Samples.mirrored_twin_board []
            [set_checklists [Samples.twin_checklist] Samples.garden_twin]
            (set_checklists [Samples.garden_checklist] Samples.garden_master)
            Samples.garden [("Dig beds", false)] _ _ _).
  - by vm_compute.
  - by vm_compute.
  - by intros c ?%elem_of_nil.
Defined.

Lemma state_updates_shape card item closed :
  state_updates card item closed = []
  ∨ (state_updates card item closed
     = [cards_update_checkItem_idCheckItem (item_id item) (card_id card)
          (state_of_checked closed)]
     ∧ item_state item ≠ state_of_checked closed).
Proof.
  destruct (decide (item_state item = state_of_checked closed)) as [Hs|Hs].
  - left. by apply state_updates_agree.
  - right. split; [by apply state_updates_differ|done].
Qed.

(** X20: the item loop makes at most one call per item of the checklist.
    The calls of the loop are, item by item and in the order of the
    checklist, the calls of the iteration of that item on the list as the
    items before it have left it.  The iteration of one item makes no
    call when the first entry of its title agrees with its state, one
    update of the item on this card, to the state of that entry, when it
    does not agree, and one deletion of the item from this checklist when
    no entry has its title. *)
Theorem item_loop_calls (card : Card) (checklist : string)
    (before after : list CheckItem) (item : CheckItem) (entries : list (string * bool)) :
  let rest := (reconcile_items card checklist before entries).2 in
  let step := reconcile_items card checklist [item] rest in
  (reconcile_items card checklist (before ++ item :: after) entries).1
  = (reconcile_items card checklist before entries).1
    ++ step.1
    ++ (reconcile_items card checklist after step.2).1
  ∧ (length step.1 ≤ 1)%nat
  ∧ match consume (item_name item) rest with
    | Some (closed, rest') =>
        step.2 = rest'
        ∧ (item_state item = state_of_checked closed → step.1 = [])
        ∧ (item_state item ≠ state_of_checked closed →
           step.1 = [cards_update_checkItem_idCheckItem (item_id item) (card_id card)
                       (state_of_checked closed)])
    | None =>
        step.2 = rest
        ∧ step.1 = [checklists_delete_checkItem_idCheckItem (item_id item) checklist]
    end.
Proof.
  intros rest step. subst rest step.
  rewrite (reconcile_items_app card checklist before (item :: after)).
  destruct (reconcile_items card checklist before entries) as [calls0 rest].
  cbn [fst snd].
  rewrite (reconcile_items_app card checklist [item] after rest
           : reconcile_items card checklist (item :: after) rest = _).
  destruct (reconcile_items card checklist [item] rest) as [calls1 rest1] eqn:E1.
  cbn [fst snd].
  destruct (reconcile_items card checklist after rest1) as [calls2 rest2].
  cbn [fst snd]. split; [done|].
  simpl in E1. rewrite match_item_consume in E1.
  destruct (consume (item_name item) rest) as [[closed rest']|]; simpl in E1;
    injection E1 as <- <-; rewrite ?app_nil_r.
  - destruct (state_updates_shape card item closed) as [E|[E Hs]]; rewrite E; simpl.
    + split; [lia|]. split_and!; [done..|].
      intros Hne. by rewrite (state_updates_differ card item closed Hne) in E.
    + split; [lia|]. split_and!; [done| |done]. by intros ?.
  - simpl. split; [lia|done].
Qed.

Lemma consume_sublist name entries b rest :
  consume name entries = Some (b, rest) → rest `sublist_of` entries.
Proof.
  revert rest. induction entries as [|[desc closed] entries IH]; intros rest; simpl; [done|].
  case_bool_decide.
  - intros [= <- <-]. by apply sublist_cons.
  - destruct (consume name entries) as [[b' rest']|]; simpl; [|done].
    intros [= <- <-]. apply sublist_skip. by apply IH.
Qed.

Lemma settle_sublist items entries : (settle items entries).2 `sublist_of` entries.
Proof.
  revert entries. induction items as [|item items IH]; intros entries; simpl; [done|].
  destruct (consume (item_name item) entries) as [[b rest]|] eqn:Hc; [|apply IH].
  specialize (IH rest). destruct (settle items rest) as [kept rest']. simpl in *.
  etrans; [exact IH|]. by eapply consume_sublist.
Qed.

Lemma reconcile_card_consumes fresh k projects card l entries' :
  (reconcile_card fresh k projects card).1.2 !! l = Some entries' →
  ∃ entries, projects !! l = Some entries ∧ entries' `sublist_of` entries.
Proof.
  unfold reconcile_card. rewrite reconcile_labels_project_label.
  destruct (project_label projects card (card_labels card)) as [[a entries]|] eqn:Hpl;
    [|by eauto].
  apply project_label_lookup in Hpl. unfold reconcile_label.
  destruct (match next_checklist _ _ with Some _ => _ | None => _ end) as [[cl k'] c0].
  pose proof (reconcile_items_rest card (checklist_id cl) (checkItems cl) entries) as Hrest.
  destruct (reconcile_items _ _ _ _) as [c1 rest].
  destruct (new_items _ _ _ _) as [c2 k'']. simpl in *.
  destruct (decide (label_id a = l)) as [<-|Hne].
  - rewrite lookup_insert_eq. intros [= <-]. exists entries. split; [done|].
    rewrite Hrest. apply settle_sublist.
  - rewrite lookup_insert_ne by done. eauto.
Qed.

(** X21: the loop over the project cards only consumes the grouping: it
    neither adds nor removes a key, and the list it leaves under a key is
    what is left of the list it found there, in the same order. *)
Theorem reconciler_only_consumes (fresh : nat → string) (k : nat)
    (projects : gmap string (list (string * bool))) (project_cards : list Card) :
  dom (reconciler fresh k projects project_cards).1.2 = dom projects
  ∧ ∀ l entries',
      (reconciler fresh k projects project_cards).1.2 !! l = Some entries' →
      ∃ entries, projects !! l = Some entries ∧ entries' `sublist_of` entries.
Proof.
  split; [apply reconciler_dom|].
  revert k projects. induction project_cards as [|card cards IH]; intros k projects;
    simpl; [by eauto|].
  pose proof (reconcile_card_consumes fresh k projects card) as Hcard.
  destruct (reconcile_card fresh k projects card) as [[k1 projects1] c1].
  specialize (IH k1 projects1).
  destruct (reconciler fresh k1 projects1 cards) as [[k2 projects2] c2]. simpl in *.
  intros l entries' Hl.
  destruct (IH l entries' Hl) as (entries1 & H1 & Hsub1).
  destruct (Hcard l entries1 H1) as (entries & H0 & Hsub0).
  exists entries. split; [done|]. by etrans.
Qed.

(** ** Housekeeping and the quiet run *)

(** X22: the last loop makes no call when none of its cards has the
    reserved title, and otherwise exactly one call, the deletion of the
    first card that has it; a second card of that title stays. *)
Theorem housekeeping_only_first (cards : list Card) :
  ((∀ c, c ∈ cards → card_name c ≠ check_card_name) → housekeeping cards = [])
  ∧ ∀ pre card post,
      cards = pre ++ card :: post →
      (∀ c, c ∈ pre → card_name c ≠ check_card_name) →
      card_name card = check_card_name →
      housekeeping cards = [cards_delete (card_id card)].
Proof.
  split.
  - induction cards as [|c cards IH]; intros Hno; simpl; [done|].
    rewrite bool_decide_eq_false_2 by (apply Hno; by left).
    apply IH. intros c' Hc'. apply Hno. by right.
  - intros pre card post -> Hpre Hname.
    induction pre as [|c pre IH]; simpl.
    + by rewrite bool_decide_eq_true_2.
    + rewrite bool_decide_eq_false_2 by (apply Hpre; by left).
      apply IH. intros c' Hc'. apply Hpre. by right.
Qed.

Lemma housekeeping_only_first_witness :
  housekeeping Samples.check_board = [cards_delete "c8"].
Proof.
  refine (proj2 (housekeeping_only_first Samples.check_board)
            [Samples.dig_beds] (Samples.with_labels [Samples.garden] Samples.check_card)
            [Samples.with_labels [Samples.garden]
               (Samples.plain "c12" "[CHECK] Problem with Trello script")] _ _ _).
  - reflexivity.
  - intros c Hc. apply list_elem_of_singleton in Hc as ->. by vm_compute.
  - reflexivity.
Defined.

Lemma first_loop_idle cfg clock n cards data :
  (∀ i c t, i ∈ cards → data !! i = Some c → process_card cfg t c = inl (c, [])) →
  first_loop cfg clock n cards data = (data, [], None).
Proof.
  revert n. induction cards as [|i cards IH]; intros n Hidle; simpl; [done|].
  assert (first_loop cfg clock (S n) cards data = (data, [], None)) as Hrest.
  { apply IH. intros j c t Hj. apply Hidle. by right. }
  destruct (data !! i) as [c|] eqn:Hc; [|done].
  rewrite (Hidle i c (clock n)) by (done || by left).
  by rewrite list_insert_id, Hrest.
Qed.

(** X23: on a board where no title holds a dollar and no card carries the
    snooze label, the tomorrow label or a colorless label, the run makes
    no call and ends without exception, whatever the clock shows. *)
Theorem run_on_unmarked_board (cfg : Config) (fresh : nat → string) (clock : Clock)
    (data : list Card) :
  (∀ c, c ∈ data →
        has_dollar (card_name c) = false
        ∧ (LABEL_SNOOZE cfg ∉ card_idLabels c)
        ∧ (LABEL_TOMORROW cfg ∉ card_idLabels c)
        ∧ ∀ a, a ∈ card_labels c → label_color a ≠ None) →
  main cfg fresh clock data = ([], None).
Proof.
  intros Hquiet. unfold main.
  rewrite first_loop_idle.
  2:{ intros i c t _ Hc. apply list_elem_of_lookup_2 in Hc.
      destruct (Hquiet c Hc) as (Hd & Hs & _). apply process_card_skips; auto. }
  assert (tomorrow_scheduling cfg (now_time clock) (working_set cfg data) data
          = (data, [])) as ->.
  { unfold tomorrow_scheduling. destruct (in_nightly_window _); [|done].
    apply for_cards_idle. intros i c _ Hc. apply list_elem_of_lookup_2 in Hc.
    destruct (Hquiet c Hc) as (_ & _ & Ht & _).
    unfold schedule_tomorrow, carries. by rewrite bool_decide_eq_false_2. }
  assert (project_related data = []) as ->; [|done].
  apply filter_none. intros c Hc (a & Ha & Hcol)%existsb_exists.
  apply list_elem_of_In in Ha. destruct (Hquiet c Hc) as (_ & _ & _ & Hl).
  apply (Hl a Ha). unfold colorless in Hcol. by apply bool_decide_eq_true in Hcol.
Qed.

Lemma run_on_unmarked_board_witness :
  main Samples.config Samples.fresh Samples.night_clock Samples.quiet_board = ([], None).
Proof.
  apply run_on_unmarked_board. intros c Hc.
  assert (c = Samples.unmarked ∨ c = Samples.plain "c11" "Call home") as [->| ->].
  { apply elem_of_cons in Hc as [->|Hc]; [by left|].
    apply list_elem_of_singleton in Hc. by right. }
  - split_and!; [reflexivity|apply not_elem_of_nil|apply not_elem_of_nil|].
    by intros a ?%elem_of_nil.
  - split_and!; [reflexivity|apply not_elem_of_nil|apply not_elem_of_nil|].
    by intros a ?%elem_of_nil.
Defined.
